(** * schema-diff-script: the comparison engine, embedded and verified

    The schema pipeline ([getSchemaType], [groupSchemasByType],
    [extractJsonLdSchemas], [normalizeSchema], [compareSchemasOfType],
    [compareSchemas]) and the HTML canonicalizer ([transformHtml]) are
    translated from the TypeScript sources into executable definitions.
    What the host provides (the collation behind [localeCompare],
    [JSON.parse], [JSON.stringify], [Array.prototype.sort], the [deep-diff]
    package, the cheerio tree) is modelled next to the code that calls it. *)

From Stdlib Require Import List String Ascii Bool Arith NArith Lia DecimalString.
From Stdlib Require Import Permutation Sorted.
Import ListNotations.
Open Scope string_scope.
Set Warnings "-register-all".

(* ================================================================== *)
(** * JSON values *)

(** A value produced by [JSON.parse].  A number is carried by the digits
    [Number::toString] prints for it: two finite doubles are [===] exactly
    when they print alike (both zeros print [0]), and [JSON.stringify]
    prints those digits.  A string is its sequence of code units, those
    below U+0100, one [ascii] each.  An object is the list of its own
    properties in the order [Object.keys] enumerates them. *)
Inductive json : Type :=
| JNull
| JBool (b : bool)
| JNumber (repr : string)
| JString (s : string)
| JArray (items : list json)
| JObject (props : list (string * json)).

(** The double quote, which a string literal cannot hold. *)
Definition dquote : ascii := "034"%char.

(* ================================================================== *)
(** * Array.prototype.sort *)

(** [arr.sort(cmp)] is a stable sort: an element goes in front of the
    first one it does not compare greater than, so that elements that
    compare equal keep the order they came in. *)
Section JsSort.
Context {A : Type}.
Variable cmp : A -> A -> comparison.

Fixpoint insert_sorted (x : A) (l : list A) : list A :=
  match l with
  | [] => [x]
  | y :: l' =>
      match cmp x y with
      | Gt => y :: insert_sorted x l'
      | _ => x :: l
      end
  end.

Definition js_sort (l : list A) : list A := fold_right insert_sorted [] l.

(** [a] may stand before [b]: the comparator does not put it after. *)
Definition notAfter (a b : A) : Prop := cmp a b <> Gt.
End JsSort.

(** [keys.sort()] without a comparator orders strings by code units. *)
Definition sort_strings : list string -> list string := js_sort String.compare.

(* ================================================================== *)
(** * Own properties of a plain object *)

Definition digitValue (c : ascii) : option N :=
  let n := N_of_ascii c in
  if ((48 <=? n) && (n <=? 57))%N then Some (n - 48)%N else None.

Fixpoint parseDigits (acc : N) (s : string) : option N :=
  match s with
  | EmptyString => Some acc
  | String c s' =>
      match digitValue c with
      | Some d => parseDigits (10 * acc + d)%N s'
      | None => None
      end
  end.

(** [ToString] of a non-negative integer. *)
Definition printN (n : N) : string := NilEmpty.string_of_uint (N.to_uint n).

(** A key is an array index when it is the canonical decimal form of an
    integer from 0 to 2^32 - 2, that is when printing the number it reads
    as gives the key back; such keys are enumerated first, in ascending
    numeric order, whatever the order they were created in. *)
Definition arrayIndex (k : string) : option N :=
  match parseDigits 0%N k with
  | Some n =>
      if ((n <? 4294967295)%N && String.eqb (printN n) k)%bool then Some n
      else None
  | None => None
  end.

Section OwnProperties.
Context {A : Type}.

Fixpoint obj_get (k : string) (o : list (string * A)) : option A :=
  match o with
  | [] => None
  | (k', v) :: o' => if String.eqb k k' then Some v else obj_get k o'
  end.

Definition obj_has (k : string) (o : list (string * A)) : bool :=
  existsb (fun kv => String.eqb k (fst kv)) o.

Fixpoint obj_replace (k : string) (v : A) (o : list (string * A)) :
  list (string * A) :=
  match o with
  | [] => []
  | (k', v') :: o' =>
      if String.eqb k k' then (k', v) :: o' else (k', v') :: obj_replace k v o'
  end.

Fixpoint obj_insert_index (n : N) (k : string) (v : A)
  (o : list (string * A)) : list (string * A) :=
  match o with
  | [] => [(k, v)]
  | (k', v') :: o' =>
      match arrayIndex k' with
      | Some m =>
          if (m <? n)%N then (k', v') :: obj_insert_index n k v o'
          else (k, v) :: o
      | None => (k, v) :: o
      end
  end.

(** [o[k] = v] on an object created by [{}].  Assigning to [__proto__]
    runs the setter inherited from [Object.prototype] and creates no own
    property; an existing property keeps its place; a new array index
    goes among the indices, any other new key goes last. *)
Definition obj_set (k : string) (v : A) (o : list (string * A)) :
  list (string * A) :=
  if String.eqb k "__proto__" then o
  else if obj_has k o then obj_replace k v o
  else match arrayIndex k with
       | Some n => obj_insert_index n k v o
       | None => o ++ [(k, v)]
       end.

(** The loop [for (const key of keys) normalized[key] = values[key]]. *)
Definition assignKeys (values : list (string * A)) (keys : list string)
  (normalized : list (string * A)) : list (string * A) :=
  fold_left
    (fun normalized key =>
       match obj_get key values with
       | Some v => obj_set key v normalized
       | None => normalized
       end)
    keys normalized.
End OwnProperties.

(* ================================================================== *)
(** * JSON.stringify *)

Definition hexDigit (n : nat) : ascii :=
  nth n (list_ascii_of_string "0123456789abcdef") "0"%char.

(** One code unit inside a quoted string, escaped as [JSON.stringify]
    does: the quote, the backslash and the code units below U+0020. *)
Definition quoteChar (c : ascii) : string :=
  let n := nat_of_ascii c in
  if (n =? 8)%nat then "\b"
  else if (n =? 9)%nat then "\t"
  else if (n =? 10)%nat then "\n"
  else if (n =? 12)%nat then "\f"
  else if (n =? 13)%nat then "\r"
  else if (n =? 34)%nat then String "\"%char (String dquote "")
  else if (n =? 92)%nat then "\\"
  else if (n <? 32)%nat then
    "\u00" ++ String (hexDigit (n / 16)) (String (hexDigit (n mod 16)) "")
  else String c "".

Fixpoint quoteBody (s : string) : string :=
  match s with
  | EmptyString => ""
  | String c s' => quoteChar c ++ quoteBody s'
  end.

Definition quote (s : string) : string :=
  String dquote (quoteBody s ++ String dquote "").

Fixpoint stringify (v : json) : string :=
  match v with
  | JNull => "null"
  | JBool true => "true"
  | JBool false => "false"
  | JNumber repr => repr
  | JString s => quote s
  | JArray items => "[" ++ String.concat "," (map stringify items) ++ "]"
  | JObject props =>
      "{" ++ String.concat ","
               (map (fun kv => quote (fst kv) ++ ":" ++ stringify (snd kv)) props)
          ++ "}"
  end.

(* ================================================================== *)
(** * String.prototype.localeCompare *)

(** The host compares two strings by their collation keys (Unicode
    Collation Algorithm): the primary weights of the whole string, then a
    separator, then the lower-level weights.  The sign of the result is the
    lexicographic comparison of the two keys. *)
Fixpoint compareKeys (k1 k2 : list N) : comparison :=
  match k1, k2 with
  | [], [] => Eq
  | [], _ :: _ => Lt
  | _ :: _, [] => Gt
  | a :: k1', b :: k2' =>
      match (a ?= b)%N with
      | Eq => compareKeys k1' k2'
      | ne => ne
      end
  end.

Section Collation.
(** The collation key of the host's default locale. *)
Variable collationKey : string -> list N.

Definition localeCompare (a b : string) : comparison :=
  compareKeys (collationKey a) (collationKey b).

(** The comparator [(a, b) => JSON.stringify(a).localeCompare(JSON.stringify(b))]. *)
Definition compareSerialized (a b : json) : comparison :=
  localeCompare (stringify a) (stringify b).

(* ---------------------------------------------------------------- *)
(** ** normalizeSchema *)

(** [values] holds [normalizeSchema(schema[key])] for every own key, so
    that the loop over [sortedKeys] reads it where the source calls
    [normalizeSchema(schema[key])]. *)
Fixpoint normalizeSchema (schema : json) : json :=
  match schema with
  | JArray items =>
      JArray (js_sort compareSerialized (map normalizeSchema items))
  | JObject props =>
      let sortedKeys := sort_strings (map fst props) in
      let values := map (fun kv => (fst kv, normalizeSchema (snd kv))) props in
      JObject (assignKeys values sortedKeys [])
  | _ => schema
  end.
End Collation.

(* ================================================================== *)
(** * A collation key for Basic Latin *)

(** The collation is the host's: every statement that does not name a
    key holds for all of them.  This one is the key of the CLDR root
    collation, which the usual locales share on Basic Latin: white space,
    punctuation, symbols, the dollar sign, digits, then the letters, a
    letter and its capital sharing a primary weight. *)
Definition cldrOrder : list ascii :=
  ["009"; "010"; "011"; "012"; "013"; "133"]%char
  ++ list_ascii_of_string " _-,;:!?.'"
  ++ [dquote]
  ++ list_ascii_of_string "()[]{}@*/\&#%`^+<=>|~$0123456789".

Fixpoint indexOf (c : ascii) (l : list ascii) (i : N) : option N :=
  match l with
  | [] => None
  | x :: l' => if Ascii.eqb c x then Some i else indexOf c l' (i + 1)%N
  end.

(** Controls and the soft hyphen carry no weight at any level. *)
Definition ignorable (c : ascii) : bool :=
  let n := N_of_ascii c in
  ((n <=? 8) || ((14 <=? n) && (n <=? 31)) || ((127 <=? n) && (n <=? 132))
   || ((134 <=? n) && (n <=? 159)) || (n =? 173))%N.

Definition isUpper (c : ascii) : bool :=
  let n := N_of_ascii c in ((65 <=? n) && (n <=? 90))%N.

Definition isLower (c : ascii) : bool :=
  let n := N_of_ascii c in ((97 <=? n) && (n <=? 122))%N.

(** Code units from U+00A0 up (the soft hyphen apart) are outside the
    tabled range; they are placed after the letters in code-unit order. *)
Definition primaryWeight (c : ascii) : N :=
  let n := N_of_ascii c in
  if isLower c then (100 + (n - 97))%N
  else if isUpper c then (100 + (n - 65))%N
  else match indexOf c cldrOrder 1%N with
       | Some i => i
       | None => (200 + n)%N
       end.

Definition tertiaryWeight (c : ascii) : N := if isUpper c then 8%N else 2%N.

Definition cldrRootKey (s : string) : list N :=
  let ces := filter (fun c => negb (ignorable c)) (list_ascii_of_string s) in
  map primaryWeight ces ++ [0%N] ++ map tertiaryWeight ces.

(* ================================================================== *)
(** * getSchemaType *)

(** [ToString] of a JSON value, as [sort()] and [join] apply it.  An array
    joins its elements with a comma, [null] elements printing as nothing.
    An object that owns a [toString] property, which is never callable in
    parsed JSON, makes the conversion throw a TypeError: [None]. *)
Fixpoint toStringJS (v : json) : option string :=
  match v with
  | JNull => Some "null"
  | JBool true => Some "true"
  | JBool false => Some "false"
  | JNumber repr => Some repr
  | JString s => Some s
  | JArray items =>
      option_map (String.concat ",")
        ((fix pieces (l : list json) : option (list string) :=
            match l with
            | [] => Some []
            | x :: l' =>
                match match x with JNull => Some "" | _ => toStringJS x end,
                      pieces l' with
                | Some s, Some ss => Some (s :: ss)
                | _, _ => None
                end
            end) items)
  | JObject props =>
      if obj_has "toString" props then None else Some "[object Object]"
  end.

(** [items.join(sep)]. *)
Fixpoint joinPieces (items : list json) : option (list string) :=
  match items with
  | [] => Some []
  | x :: l' =>
      match match x with JNull => Some "" | _ => toStringJS x end,
            joinPieces l' with
      | Some s, Some ss => Some (s :: ss)
      | _, _ => None
      end
  end.

Definition join (sep : string) (items : list json) : option string :=
  option_map (String.concat sep) (joinPieces items).

(** [items.sort()]: the elements ordered by the code units of their
    [ToString]; the order is only read when every conversion succeeds. *)
Definition compareDefault (a b : json) : comparison :=
  match toStringJS a, toStringJS b with
  | Some x, Some y => String.compare x y
  | _, _ => Eq
  end.

Definition sortDefault (items : list json) : list json :=
  js_sort compareDefault items.

(** [!schema] is false for every value but [null], [false], [0] and the
    empty string. *)
Definition truthy (v : json) : bool :=
  match v with
  | JNull => false
  | JBool b => b
  | JNumber repr => negb (String.eqb repr "0")
  | JString s => negb (String.eqb s "")
  | JArray _ | JObject _ => true
  end.

(** [schema[key]]: only an object owns a property named like a JSON-LD
    keyword. *)
Definition getProp (key : string) (schema : json) : option json :=
  match schema with
  | JObject props => obj_get key props
  | _ => None
  end.

(** The type key; [None] when the call throws. *)
Definition getSchemaType (schema : json) : option string :=
  if negb (truthy schema) then Some "unknown"
  else match getProp "@type" schema with
       | Some (JString s) => Some s
       | Some (JArray types) => join ", " (sortDefault types)
       | Some (JObject props) => Some (stringify (JObject props))
       | _ => Some "unknown"
       end.

(** [sort()] works in place: after the call the [@type] array of the
    argument is the sorted one.  This is the argument as the call leaves
    it. *)
Definition getSchemaType_leaves (schema : json) : json :=
  match schema with
  | JObject props =>
      match obj_get "@type" props with
      | Some (JArray types) =>
          JObject (obj_replace "@type" (JArray (sortDefault types)) props)
      | _ => schema
      end
  | _ => schema
  end.

(* ================================================================== *)
(** * groupSchemasByType *)

(** A [Map<string, any[]>]: its entries in insertion order. *)
Definition TypeMap : Type := list (string * list json).

Fixpoint map_push (type : string) (schema : json) (grouped : TypeMap) : TypeMap :=
  match grouped with
  | [] => [(type, [schema])]
  | (t, bucket) :: rest =>
      if String.eqb type t then (t, (bucket ++ [schema])%list) :: rest
      else (t, bucket) :: map_push type schema rest
  end.

(** The [forEach] loop; every schema is stored as [getSchemaType] left
    it. *)
Fixpoint groupSchemasByType_from (grouped : TypeMap) (schemas : list json) :
  option TypeMap :=
  match schemas with
  | [] => Some grouped
  | schema :: rest =>
      match getSchemaType schema with
      | Some type =>
          groupSchemasByType_from
            (map_push type (getSchemaType_leaves schema) grouped) rest
      | None => None
      end
  end.

Definition groupSchemasByType (schemas : list json) : option TypeMap :=
  groupSchemasByType_from [] schemas.

(* ================================================================== *)
(** * extractJsonLdSchemas *)

Record JsonLdSchema : Type := {
  url : string;
  schemas : list json;
  schemasByType : TypeMap
}.

Definition parseWarning (url : string) : string :=
  "Warning: Failed to parse JSON-LD schema in " ++ url ++ ":".

Section Extraction.
(** [JSON.parse]; [None] when it throws a SyntaxError. *)
Variable JSON_parse : string -> option json.

(** One turn of the [each] callback over the state
    (schemas collected, warnings printed). *)
Definition extractBlock (url : string) (st : list json * list string)
  (content : string) : list json * list string :=
  if String.eqb content "" then st
  else match JSON_parse content with
       | Some (JArray parsed) => ((fst st ++ parsed)%list, snd st)
       | Some parsed => ((fst st ++ [parsed])%list, snd st)
       | None => (fst st, (snd st ++ [parseWarning url])%list)
       end.

Definition collectBlocks (blocks : list string) (url : string) :
  list json * list string :=
  fold_left (extractBlock url) blocks ([], []).

(** [blocks] is what cheerio hands over: the [html()] of every
    [script[type="application/ld+json"]] element, in document order.
    The result is the returned record ([None] when grouping throws)
    and the warnings printed.  The record shares its schemas with the
    map, so it holds them as [getSchemaType] left them. *)
Definition extractJsonLdSchemas (blocks : list string) (url : string) :
  option JsonLdSchema * list string :=
  let collected := collectBlocks blocks url in
  (match groupSchemasByType (fst collected) with
   | Some byType =>
       Some {| url := url;
               schemas := map getSchemaType_leaves (fst collected);
               schemasByType := byType |}
   | None => None
   end,
   snd collected).
End Extraction.

(* ================================================================== *)
(** * deep-diff 1.0.2 *)

Inductive pathKey : Type :=
| PKey (k : string)
| PIndex (i : nat).

(** [kind] N, D, E and A.  An empty path stands for a record without a
    [path] property. *)
Inductive change : Type :=
| DiffNew (path : list pathKey) (rhs : json)
| DiffDeleted (path : list pathKey) (lhs : json)
| DiffEdit (path : list pathKey) (lhs rhs : json)
| DiffArray (path : list pathKey) (index : nat) (item : change).

Inductive realType : Type := TNull | TBoolean | TNumber | TString | TArray | TObject.

Definition realTypeOf (v : json) : realType :=
  match v with
  | JNull => TNull
  | JBool _ => TBoolean
  | JNumber _ => TNumber
  | JString _ => TString
  | JArray _ => TArray
  | JObject _ => TObject
  end.

(** [lhs !== rhs] on two values of the same primitive type. *)
Definition strictEqualPrim (lhs rhs : json) : bool :=
  match lhs, rhs with
  | JNull, JNull => true
  | JBool a, JBool b => Bool.eqb a b
  | JNumber a, JNumber b => String.eqb a b
  | JString a, JString b => String.eqb a b
  | _, _ => false
  end.

(** The elements one array has beyond the length [n], from the last index
    down. *)
Definition extraItems (mk : json -> change) (path : list pathKey) (n : nat)
  (items : list json) : list change :=
  rev (map (fun iv => DiffArray path (fst iv) (mk (snd iv)))
         (combine (seq n (List.length items - n)) (skipn n items))).

(** [deepDiff(lhs, rhs, changes, prefilter, path, key, stack)] with
    [currentPath] the path extended by the key.  Both operands are trees
    without sharing, so the search of [stack] for a cycle finds nothing.
    An object walks the keys of [lhs], then the keys of [rhs] it has not
    met, skipping a key that is falsy: the empty string. *)
Fixpoint deepDiff (lhs rhs : json) (currentPath : list pathKey) : list change :=
  match lhs, rhs with
  | JArray l, JArray r =>
      extraItems (DiffNew []) currentPath (List.length l) r
      ++ extraItems (DiffDeleted []) currentPath (List.length r) l
      ++ List.concat (rev
           ((fix common (l r : list json) (i : nat) : list (list change) :=
               match l, r with
               | x :: l', y :: r' =>
                   deepDiff x y (currentPath ++ [PIndex i]) :: common l' r' (S i)
               | _, _ => []
               end) l r 0))
  | JObject lp, JObject rp =>
      List.concat
        ((fix walk (akeys : list (string * json)) : list (list change) :=
            match akeys with
            | [] => []
            | (k, v) :: rest =>
                match obj_get k rp with
                | Some w => deepDiff v w (currentPath ++ [PKey k])
                | None => [DiffDeleted (currentPath ++ [PKey k]) v]
                end :: walk rest
            end) lp)
      ++ flat_map
           (fun kw =>
              if obj_has (fst kw) lp || String.eqb (fst kw) "" then []
              else [DiffNew (currentPath ++ [PKey (fst kw)]) (snd kw)])
           rp
  | _, _ =>
      match realTypeOf lhs, realTypeOf rhs with
      | TNull, TNull | TBoolean, TBoolean | TNumber, TNumber | TString, TString =>
          if strictEqualPrim lhs rhs then [] else [DiffEdit currentPath lhs rhs]
      | _, _ => [DiffEdit currentPath lhs rhs]
      end
  end.

(** [diff(lhs, rhs)]: the changes, or [undefined] when there is none. *)
Definition diff (lhs rhs : json) : option (list change) :=
  match deepDiff lhs rhs [] with
  | [] => None
  | changes => Some changes
  end.

(* ================================================================== *)
(** * compareSchemasOfType and compareSchemas *)

Record TypeComparison : Type := {
  type : string;
  count1 : nat;
  count2 : nat;
  differences : list change;
  identical : bool
}.

Record ComparisonReport : Type := {
  url1 : string;
  url2 : string;
  totalSchemas1 : nat;
  totalSchemas2 : nat;
  typeCounts1 : list (string * nat);
  typeCounts2 : list (string * nat);
  typeComparisons : list TypeComparison;
  allTypesIdentical : bool
}.

(** [new Set(keys)]: the keys in order of first appearance. *)
Definition setOf (keys : list string) : list string :=
  fold_left
    (fun seen k => if existsb (String.eqb k) seen then seen else (seen ++ [k])%list)
    keys [].

(** [map.get(type) || []]. *)
Definition bucketOf (byType : TypeMap) (t : string) : list json :=
  match obj_get t byType with
  | Some bucket => bucket
  | None => []
  end.

Section Comparison.
Variable collationKey : string -> list N.

(** The operands of [diff] are the normalized schemas with their own
    properties.  An own property named [__proto__] of a schema is lost by
    the assignment in [normalizeSchema]; when its value is an object or
    an array the assignment makes that value the prototype of the
    normalized object, which [realTypeOf] of deep-diff reaches through
    the inherited [toString].  The statements on schemas of any content
    that depend on the typing of such an object assume [noProtoKey]. *)
Definition compareSchemasOfType (t : string) (schemas1 schemas2 : list json) :
  TypeComparison :=
  let normalized1 :=
    js_sort (compareSerialized collationKey)
      (map (normalizeSchema collationKey) schemas1) in
  let normalized2 :=
    js_sort (compareSerialized collationKey)
      (map (normalizeSchema collationKey) schemas2) in
  let differences := diff (JArray normalized1) (JArray normalized2) in
  {| type := t;
     count1 := List.length schemas1;
     count2 := List.length schemas2;
     differences := match differences with Some d => d | None => [] end;
     identical := match differences with
                  | None => true
                  | Some d => Nat.eqb (List.length d) 0
                  end |}.

Definition allTypes (schemas1 schemas2 : JsonLdSchema) : list string :=
  setOf (map fst (schemasByType schemas1) ++ map fst (schemasByType schemas2)).

(** [typeCounts[type] = schemas.length] for every entry of the map. *)
Definition countTypes (byType : TypeMap) : list (string * nat) :=
  fold_left (fun counts entry => obj_set (fst entry) (List.length (snd entry)) counts)
    byType [].

Definition compareSchemas (schemas1 schemas2 : JsonLdSchema) : ComparisonReport :=
  let typeComparisons :=
    fold_left
      (fun comparisons t =>
         (comparisons
          ++ [compareSchemasOfType t
                (bucketOf (schemasByType schemas1) t)
                (bucketOf (schemasByType schemas2) t)])%list)
      (allTypes schemas1 schemas2) [] in
  {| url1 := url schemas1;
     url2 := url schemas2;
     totalSchemas1 := List.length (schemas schemas1);
     totalSchemas2 := List.length (schemas schemas2);
     typeCounts1 := countTypes (schemasByType schemas1);
     typeCounts2 := countTypes (schemasByType schemas2);
     typeComparisons := typeComparisons;
     allTypesIdentical := forallb identical typeComparisons |}.
End Comparison.

(* ================================================================== *)
(** * transformHtml *)

(** The tree cheerio builds (domhandler): elements with their attributes
    and child nodes, and the nodes that are not elements. *)
Inductive node : Type :=
| Element (name : string) (attribs : list (string * string)) (children : list node)
| Text (data : string)
| Comment (data : string)
| Directive (data : string).

(** [el.type]: domhandler types an element by its name. *)
Inductive elementType : Type := TagType | ScriptType | StyleType.

Definition typeOfElement (name : string) : elementType :=
  if String.eqb name "script" then ScriptType
  else if String.eqb name "style" then StyleType
  else TagType.

Definition isElement (n : node) : bool :=
  match n with
  | Element _ _ _ => true
  | _ => false
  end.

Definition hasName (tag : string) (n : node) : bool :=
  match n with
  | Element name _ _ => String.eqb name tag
  | _ => false
  end.

(** [$(el).attr(name)]. *)
Definition attr (name : string) (n : node) : option string :=
  match n with
  | Element _ attribs _ => obj_get name attribs
  | _ => None
  end.

(** The code units [\s] matches and [trim] removes: white space and
    line terminators. *)
Definition isWhiteSpace (c : ascii) : bool :=
  let n := N_of_ascii c in
  (((9 <=? n) && (n <=? 13)) || (n =? 32) || (n =? 160))%N.

Fixpoint trimStart (s : string) : string :=
  match s with
  | EmptyString => ""
  | String c s' => if isWhiteSpace c then trimStart s' else s
  end.

Fixpoint trimEnd (s : string) : string :=
  match s with
  | EmptyString => ""
  | String c s' =>
      let rest := trimEnd s' in
      if (isWhiteSpace c && String.eqb rest "")%bool then "" else String c rest
  end.

(** [s.trim()]. *)
Definition trim (s : string) : string := trimEnd (trimStart s).

(** [s.split(/\s+/)]: the pieces between the runs of white space. *)
Fixpoint splitSpaces (s : string) : list string :=
  match s with
  | EmptyString => [""]
  | String c s' =>
      if isWhiteSpace c then
        match s' with
        | String c' _ =>
            if isWhiteSpace c' then splitSpaces s' else "" :: splitSpaces s'
        | EmptyString => "" :: splitSpaces s'
        end
      else match splitSpaces s' with
           | piece :: pieces => String c piece :: pieces
           | [] => [String c ""]
           end
  end.

(** cheerio's [splitNames(names)]: [names ? names.trim().split(/\s+/) : []]. *)
Definition splitNames (names : string) : list string :=
  if String.eqb names "" then [] else splitSpaces (trim names).

(** cheerio's [removeAttribute(elem, name)]: [delete elem.attribs[name]]. *)
Definition removeAttribute (name : string) (attribs : list (string * string)) :
  list (string * string) :=
  filter (fun kv => negb (String.eqb (fst kv) name)) attribs.

(** [$(el).removeAttr(name)]: cheerio takes [name] for a list of names
    separated by white space and removes the attribute of each name of
    the list. *)
Definition removeAttr (name : string) (attribs : list (string * string)) :
  list (string * string) :=
  fold_left (fun remaining attrName => removeAttribute attrName remaining)
    (splitNames name) attribs.

(** [names.forEach(attr => $(el).removeAttr(attr))]. *)
Definition removeAttrs (names : list string) (attribs : list (string * string)) :
  list (string * string) :=
  fold_left (fun remaining name => removeAttr name remaining) names attribs.

(** [$(sel).removeAttr(...)] over every element: [f] rewrites the
    attributes of each element of the tree. *)
Fixpoint mapAttribs (f : list (string * string) -> list (string * string))
  (n : node) : node :=
  match n with
  | Element name attribs children =>
      Element name (f attribs) (map (mapAttribs f) children)
  | _ => n
  end.

(** [$(sel).each(el => if (p(el)) $(el).remove())]: every element that
    [p] holds of leaves the tree with its subtree. *)
Fixpoint removeElements (p : node -> bool) (n : node) : node :=
  match n with
  | Element name attribs children =>
      Element name attribs
        ((fix keep (cs : list node) : list node :=
            match cs with
            | [] => []
            | c :: cs' =>
                if p c then keep cs' else removeElements p c :: keep cs'
            end) children)
  | _ => n
  end.

Definition removeFromDocument (p : node -> bool) (doc : list node) : list node :=
  map (removeElements p) (filter (fun c => negb (p c)) doc).

(** [$(el).children()] are the element children; [remove()] takes them
    out and leaves the other child nodes. *)
Definition removeElementChildren (children : list node) : list node :=
  filter (fun c => negb (isElement c)) children.

(** The loop over [$("svg")]: the element children of an [svg] are
    removed, and [removeAttr] is called with each name of
    [Object.keys(el.attribs)].  An [svg] below another one leaves the
    tree with it. *)
Fixpoint emptySvg (n : node) : node :=
  match n with
  | Element name attribs children =>
      if String.eqb name "svg" then
        match typeOfElement name with
        | TagType =>
            Element name (removeAttrs (map fst attribs) attribs)
              (removeElementChildren children)
        | _ => n
        end
      else Element name attribs (map emptySvg children)
  | _ => n
  end.

Definition isDataAttr (name : string) : bool := String.prefix "data-" name.

(** The loop over [Object.keys(node.attribs)]: [removeAttr] is called
    with each name that starts with [data-]. *)
Definition removeDataAttribs (attribs : list (string * string)) :
  list (string * string) :=
  removeAttrs (filter isDataAttr (map fst attribs)) attribs.

Definition scriptToRemove (n : node) : bool :=
  hasName "script" n
  && negb (match attr "type" n with
           | Some t => String.eqb t "application/ld+json"
           | None => false
           end).

Definition linkToRemove (n : node) : bool :=
  hasName "link" n
  && negb (match attr "rel" n with
           | Some r => String.eqb r "canonical"
           | None => false
           end).

(** The steps of [transformHtml] between [load(html)] and [$.html()]:
    the comment and blank-line rewriting of the text before, and the
    serialisation and [prettier.format] after, belong to the host. *)
Definition transformHtml (doc : list node) : list node :=
  let doc := map (mapAttribs (removeAttr "class")) doc in
  let doc := map (mapAttribs (removeAttr "srcset")) doc in
  let doc := map (mapAttribs (removeAttr "imagesrcset")) doc in
  let doc := map (mapAttribs (removeAttr "style")) doc in
  let doc := map (mapAttribs (removeAttr "onclick")) doc in
  let doc := map (mapAttribs removeDataAttribs) doc in
  let doc := removeFromDocument scriptToRemove doc in
  let doc := removeFromDocument (hasName "style") doc in
  let doc := removeFromDocument linkToRemove doc in
  let doc := removeFromDocument (hasName "template") doc in
  map emptySvg doc.

(** Every element of a tree, the root first. *)
Fixpoint elementsOf (n : node) : list node :=
  match n with
  | Element _ _ children => n :: flat_map elementsOf children
  | _ => []
  end.

Definition childNodes (n : node) : list node :=
  match n with
  | Element _ _ children => children
  | _ => []
  end.

Definition attributes (n : node) : list (string * string) :=
  match n with
  | Element _ attribs _ => attribs
  | _ => []
  end.

(* ================================================================== *)
(** * Equality up to order *)

(** Two JSON values are equal ignoring the order of object keys and of
    array elements. *)
Inductive json_equiv : json -> json -> Prop :=
| equiv_null : json_equiv JNull JNull
| equiv_bool b : json_equiv (JBool b) (JBool b)
| equiv_number repr : json_equiv (JNumber repr) (JNumber repr)
| equiv_string s : json_equiv (JString s) (JString s)
| equiv_array l l' m :
    Permutation l m -> Forall2 json_equiv m l' ->
    json_equiv (JArray l) (JArray l')
| equiv_object p p' m :
    Permutation p m ->
    Forall2 (fun kv kv' => fst kv = fst kv' /\ json_equiv (snd kv) (snd kv')) m p' ->
    json_equiv (JObject p) (JObject p').

(* ================================================================== *)
(** * Definitions the statements use *)

(** The comparator as the specification words it: the code-unit order of
    the two serialised forms. *)
Definition compareSerializedCodeUnits (a b : json) : comparison :=
  String.compare (stringify a) (stringify b).

(** What one block contributes when it parses: the elements of an array,
    or the single value. *)
Definition blockInstances (JSON_parse : string -> option json)
  (content : string) : list json :=
  if String.eqb content "" then []
  else match JSON_parse content with
       | Some (JArray parsed) => parsed
       | Some parsed => [parsed]
       | None => []
       end.


(** Two pages with one [Product] each, the name changed. *)
Definition pageOld : JsonLdSchema :=
  {| url := "https://a.example/p";
     schemas := [JObject [("@type", JString "Product"); ("name", JString "Old")]];
     schemasByType :=
       [("Product", [JObject [("@type", JString "Product"); ("name", JString "Old")]])] |}.

Definition pageNew : JsonLdSchema :=
  {| url := "https://b.example/p";
     schemas := [JObject [("@type", JString "Product"); ("name", JString "New")]];
     schemasByType :=
       [("Product", [JObject [("@type", JString "Product"); ("name", JString "New")]])] |}.

(** The order in which the own properties of an object built by
    assigning code-unit sorted keys are enumerated: array indices by
    value, then the other keys by code units. *)
Definition propBefore (k1 k2 : string) : Prop :=
  match arrayIndex k1, arrayIndex k2 with
  | Some a, Some b => (a < b)%N
  | Some _, None => True
  | None, Some _ => False
  | None, None => String.compare k1 k2 = Lt
  end.

(** The value the loop of [assignKeys] gives the key [k], if any. *)
Definition assigned {A : Type} (values : list (string * A)) (keys : list string)
  (k : string) : option A :=
  if (existsb (String.eqb k) keys && negb (String.eqb k "__proto__"))%bool
  then obj_get k values else None.

(** The soft hyphen U+00AD. *)
Definition softHyphen : ascii := "173"%char.

(** The own keys of every object of the value are distinct, as they are
    in what [JSON.parse] returns. *)
Fixpoint distinctKeys (v : json) : Prop :=
  match v with
  | JArray items =>
      (fix all (l : list json) : Prop :=
         match l with
         | [] => True
         | x :: l' => distinctKeys x /\ all l'
         end) items
  | JObject props =>
      NoDup (map fst props)
      /\ (fix all (l : list (string * json)) : Prop :=
            match l with
            | [] => True
            | kv :: l' => distinctKeys (snd kv) /\ all l'
            end) props
  | _ => True
  end.

(** The letter [a] followed by a soft hyphen. *)
Definition aSoft : string := String "a" (String softHyphen "").

(** A product, and the same product with a property named [__proto__]. *)
Definition product : json := JObject [("@type", JString "Product")].

Definition productProto : json :=
  JObject [("@type", JString "Product"); ("__proto__", JString "x")].

(** The same product with a property whose name is the empty string. *)
Definition productEmptyKey : json :=
  JObject [("@type", JString "Product"); ("", JString "x")].

(** Every element of a document. *)
Definition elementsOfDocument (doc : list node) : list node :=
  flat_map elementsOf doc.

(* ================================================================== *)
(** * The lines displayHtmlDiff prints for a run *)








(* ================================================================== *)
(** * More definitions the statements use *)

(** The schema has the type key [t]. *)
Definition hasTypeKey (t : string) (schema : json) : bool :=
  match getSchemaType schema with
  | Some t' => String.eqb t' t
  | None => false
  end.

(** The string [sort()] compares an element by, when it has one. *)
Definition toStringOr (v : json) : string :=
  match toStringJS v with
  | Some s => s
  | None => ""
  end.

Definition compareByString (a b : json) : comparison :=
  String.compare (toStringOr a) (toStringOr b).

(** Some object of the value, reached through arrays only, owns a
    property named [toString]. *)
Fixpoint ownsToString (v : json) : bool :=
  match v with
  | JArray items =>
      (fix any (l : list json) : bool :=
         match l with
         | [] => false
         | x :: l' => (ownsToString x || any l')%bool
         end) items
  | JObject props => obj_has "toString" props
  | _ => false
  end.

(** No object of the value owns a property named [__proto__]. *)
Fixpoint noProtoKey (v : json) : Prop :=
  match v with
  | JArray items =>
      (fix all (l : list json) : Prop :=
         match l with
         | [] => True
         | x :: l' => noProtoKey x /\ all l'
         end) items
  | JObject props =>
      ~ In "__proto__" (map fst props)
      /\ (fix all (l : list (string * json)) : Prop :=
            match l with
            | [] => True
            | kv :: l' => noProtoKey (snd kv) /\ all l'
            end) props
  | _ => True
  end.

(** The name of an element. *)
Definition nameOf (n : node) : string :=
  match n with
  | Element name _ _ => name
  | _ => ""
  end.

(** The names of the five calls of [removeAttr] on a selection. *)
Definition strippedNames : list string :=
  ["class"; "srcset"; "imagesrcset"; "style"; "onclick"].

(** The calls of [removeAttr] that [transformHtml] makes on every
    element, in order. *)
Definition stripAttributes (attribs : list (string * string)) :
  list (string * string) :=
  removeDataAttribs
    (removeAttr "onclick"
       (removeAttr "style"
          (removeAttr "imagesrcset"
             (removeAttr "srcset" (removeAttr "class" attribs))))).

(** The no-break space U+00A0, which the name of an attribute may
    hold. *)
Definition noBreakSpace : ascii := "160"%char.


Definition spacedDataName : string := "data-x" ++ String noBreakSpace "lang".

(** A name [removeAttr] takes for one name: it is not empty and holds
    no white space. *)
Definition singleName (k : string) : bool :=
  (negb (String.eqb k "")
   && negb (existsb isWhiteSpace (list_ascii_of_string k)))%bool.

(** The name is none of the names a call removes. *)
Definition notNamed (names : list string) (kv : string * string) : bool :=
  negb (existsb (String.eqb (fst kv)) names).

(** Two pages with one product each: on the first the product has a
    property named [__proto__]. *)
Definition pageProductProto : JsonLdSchema :=
  {| url := "https://a.example/p";
     schemas := [productProto];
     schemasByType := [("Product", [productProto])] |}.

Definition pageProduct : JsonLdSchema :=
  {| url := "https://b.example/p";
     schemas := [product];
     schemasByType := [("Product", [product])] |}.

Definition pageProductEmptyKey : JsonLdSchema :=
  {| url := "https://c.example/p";
     schemas := [productEmptyKey];
     schemasByType := [("Product", [productEmptyKey])] |}.

(** No schema of any bucket of the map owns, at any depth, a property
    named [__proto__]. *)
Definition noProtoKeys (byType : TypeMap) : Prop :=
  Forall (fun entry => Forall noProtoKey (snd entry)) byType.

(* ================================================================== *)
(** * Induction over JSON values *)

Lemma json_nested_ind (P : json -> Prop) :
  P JNull ->
  (forall b, P (JBool b)) ->
  (forall repr, P (JNumber repr)) ->
  (forall s, P (JString s)) ->
  (forall items, Forall P items -> P (JArray items)) ->
  (forall props, Forall (fun kv => P (snd kv)) props -> P (JObject props)) ->
  forall v, P v.
Proof.
  intros Hnull Hbool Hnum Hstr Harr Hobj.
  fix IH 1.
  intros [ | b | repr | s | items | props ].
  - exact Hnull.
  - apply Hbool.
  - apply Hnum.
  - apply Hstr.
  - apply Harr. induction items as [ | x items IHitems ]; constructor.
    + apply IH.
    + exact IHitems.
  - apply Hobj. induction props as [ | [k x] props IHprops ]; constructor.
    + apply IH.
    + exact IHprops.
Qed.

(* ================================================================== *)
(** * Facts about the stable sort *)

Section SortFacts.
Context {A : Type}.
Variable cmp : A -> A -> comparison.

Lemma insert_sorted_perm (x : A) (l : list A) :
  Permutation (x :: l) (insert_sorted cmp x l).
Proof.
  induction l as [ | y l IH ]; simpl.
  - apply Permutation_refl.
  - destruct (cmp x y); try apply Permutation_refl.
    eapply perm_trans; [ apply perm_swap | apply perm_skip, IH ].
Qed.

Lemma js_sort_perm (l : list A) : Permutation l (js_sort cmp l).
Proof.
  induction l as [ | x l IH ]; simpl.
  - constructor.
  - eapply perm_trans; [ apply perm_skip, IH | apply insert_sorted_perm ].
Qed.

Lemma js_sort_In (x : A) (l : list A) : In x (js_sort cmp l) <-> In x l.
Proof.
  split; intro H.
  - eapply Permutation_in; [ apply Permutation_sym, js_sort_perm | exact H ].
  - eapply Permutation_in; [ apply js_sort_perm | exact H ].
Qed.

(** A list already in order comes back as it is. *)
Lemma js_sort_sorted (l : list A) :
  StronglySorted (notAfter cmp) l -> js_sort cmp l = l.
Proof.
  induction 1 as [ | x l Hl IH Hx ]; simpl.
  - reflexivity.
  - rewrite IH. destruct l as [ | y l ]; simpl.
    + reflexivity.
    + inversion Hx as [ | ? ? Hxy ]; subst.
      unfold notAfter in Hxy. destruct (cmp x y); congruence.
Qed.

Hypothesis cmp_antisym : forall a b, cmp a b = CompOpp (cmp b a).
Hypothesis cmp_trans : forall a b c, notAfter cmp a b -> notAfter cmp b c -> notAfter cmp a c.

Lemma insert_sorted_sorted (x : A) (l : list A) :
  StronglySorted (notAfter cmp) l -> StronglySorted (notAfter cmp) (insert_sorted cmp x l).
Proof.
  induction 1 as [ | y l Hl IH Hy ]; simpl.
  - repeat constructor.
  - destruct (cmp x y) eqn:Hxy.
    + constructor; [ constructor; assumption | ].
      constructor; [ unfold notAfter; congruence | ].
      eapply Forall_impl; [ | exact Hy ].
      intros z Hz. apply cmp_trans with y; [ unfold notAfter; congruence | exact Hz ].
    + constructor; [ constructor; assumption | ].
      constructor; [ unfold notAfter; congruence | ].
      eapply Forall_impl; [ | exact Hy ].
      intros z Hz. apply cmp_trans with y; [ unfold notAfter; congruence | exact Hz ].
    + constructor; [ exact IH | ].
      apply Forall_forall. intros z Hz.
      eapply Permutation_in in Hz; [ | apply Permutation_sym, insert_sorted_perm ].
      destruct Hz as [ <- | Hz ].
      * unfold notAfter. rewrite cmp_antisym, Hxy. discriminate.
      * rewrite Forall_forall in Hy. apply Hy, Hz.
Qed.

Lemma js_sort_StronglySorted (l : list A) : StronglySorted (notAfter cmp) (js_sort cmp l).
Proof.
  induction l as [ | x l IH ]; simpl.
  - constructor.
  - apply insert_sorted_sorted, IH.
Qed.

Lemma js_sort_idempotent (l : list A) : js_sort cmp (js_sort cmp l) = js_sort cmp l.
Proof. apply js_sort_sorted, js_sort_StronglySorted. Qed.
End SortFacts.

(** ** The two comparators are total preorders *)

Lemma compareKeys_antisym (a b : list N) :
  compareKeys a b = CompOpp (compareKeys b a).
Proof.
  revert b. induction a as [ | x a IH ]; intros [ | y b ]; simpl; try reflexivity.
  rewrite (N.compare_antisym y x). destruct (y ?= x)%N; simpl; auto.
Qed.

Lemma compareKeys_trans (a b c : list N) :
  compareKeys a b <> Gt -> compareKeys b c <> Gt -> compareKeys a c <> Gt.
Proof.
  revert b c. induction a as [ | x a IH ]; intros [ | y b ] [ | z c ]; simpl;
    try congruence.
  destruct (x ?= y)%N eqn:Hxy; destruct (y ?= z)%N eqn:Hyz; try congruence.
  - apply N.compare_eq in Hxy, Hyz. subst. rewrite N.compare_refl. apply IH.
  - apply N.compare_eq in Hxy. subst. rewrite Hyz. congruence.
  - apply N.compare_eq in Hyz. subst. rewrite Hxy. congruence.
  - intros _ _. rewrite N.compare_lt_iff in Hxy, Hyz.
    assert (Hxz : (x ?= z)%N = Lt) by (apply N.compare_lt_iff; lia).
    rewrite Hxz. congruence.
Qed.

Lemma string_compare_trans (a b c : string) :
  String.compare a b <> Gt -> String.compare b c <> Gt -> String.compare a c <> Gt.
Proof.
  revert b c. induction a as [ | x a IH ]; intros [ | y b ] [ | z c ]; simpl;
    try congruence.
  unfold Ascii.compare.
  destruct (N_of_ascii x ?= N_of_ascii y)%N eqn:Hxy;
    destruct (N_of_ascii y ?= N_of_ascii z)%N eqn:Hyz; try congruence.
  - apply N.compare_eq in Hxy, Hyz. rewrite Hxy, Hyz, N.compare_refl. apply IH.
  - apply N.compare_eq in Hxy. rewrite Hxy, Hyz. congruence.
  - apply N.compare_eq in Hyz. rewrite <- Hyz, Hxy. congruence.
  - intros _ _. rewrite N.compare_lt_iff in Hxy, Hyz.
    assert (Hxz : (N_of_ascii x ?= N_of_ascii z)%N = Lt)
      by (apply N.compare_lt_iff; lia).
    rewrite Hxz. congruence.
Qed.

Lemma string_compare_refl (a : string) : String.compare a a = Eq.
Proof.
  induction a as [ | x a IH ]; simpl; [ reflexivity | ].
  unfold Ascii.compare. rewrite N.compare_refl. exact IH.
Qed.

Section CollationFacts.
Variable collationKey : string -> list N.

Lemma compareSerialized_antisym (a b : json) :
  compareSerialized collationKey a b
  = CompOpp (compareSerialized collationKey b a).
Proof. apply compareKeys_antisym. Qed.

Lemma compareSerialized_trans (a b c : json) :
  notAfter (compareSerialized collationKey) a b ->
  notAfter (compareSerialized collationKey) b c ->
  notAfter (compareSerialized collationKey) a c.
Proof. apply compareKeys_trans. Qed.
End CollationFacts.

(* ================================================================== *)
(** * normalizeSchema on arrays *)

Section ArrayOrder.
Variable collationKey : string -> list N.

(** C1, as the code has it: on an array, [normalizeSchema] normalizes
    every element and then sorts them, stably, with the comparator
    [JSON.stringify(a).localeCompare(JSON.stringify(b))]: the result
    is a permutation of the normalized elements in which no element
    stands before one that [localeCompare] puts in front of it. *)
Theorem normalizeSchema_array_localeCompare (items : list json) :
  exists sorted,
    normalizeSchema collationKey (JArray items) = JArray sorted
    /\ sorted = js_sort (compareSerialized collationKey)
                  (map (normalizeSchema collationKey) items)
    /\ Permutation (map (normalizeSchema collationKey) items) sorted
    /\ StronglySorted
         (fun a b => localeCompare collationKey (stringify a) (stringify b) <> Gt)
         sorted.
Proof.
  eexists. split; [ reflexivity | ]. split; [ reflexivity | ]. split.
  - apply js_sort_perm.
  - apply (js_sort_StronglySorted (compareSerialized collationKey)).
    + apply compareSerialized_antisym.
    + apply compareSerialized_trans.
Qed.
End ArrayOrder.

(** C1, as the specification has it, fails: under the collation of the
    root locale [a] sorts before [B], which the code-unit order puts
    first. *)
Lemma normalizeSchema_not_code_unit_order :
  normalizeSchema cldrRootKey (JArray [JString "a"; JString "B"])
  = JArray [JString "a"; JString "B"]
  /\ js_sort compareSerializedCodeUnits
       (map (normalizeSchema cldrRootKey) [JString "a"; JString "B"])
     = [JString "B"; JString "a"]
  /\ normalizeSchema cldrRootKey (JArray [JString "a"; JString "B"])
     <> JArray (js_sort compareSerializedCodeUnits
                  (map (normalizeSchema cldrRootKey) [JString "a"; JString "B"])).
Proof.
  split; [ reflexivity | ]. split; [ reflexivity | ]. discriminate.
Qed.

(* ================================================================== *)
(** * getSchemaType *)

Lemma sorted_perm_eq {A : Type} (cmp : A -> A -> comparison) (l l' : list A) :
  (forall a b, In a l -> In b l -> notAfter cmp a b -> notAfter cmp b a -> a = b) ->
  StronglySorted (notAfter cmp) l -> StronglySorted (notAfter cmp) l' ->
  Permutation l l' -> l = l'.
Proof.
  revert l'. induction l as [ | x l IH ]; intros l' Hanti Hl Hl' Hp.
  - apply Permutation_nil in Hp. now subst.
  - destruct l' as [ | y l' ].
    + apply Permutation_sym, Permutation_nil in Hp. discriminate.
    + inversion Hl as [ | ? ? Hl1 Hx ]; inversion Hl' as [ | ? ? Hl1' Hy ]; subst.
      rewrite Forall_forall in Hx, Hy.
      assert (x = y) as ->.
      { assert (Hin : In x (y :: l')) by (eapply Permutation_in; [ exact Hp | now left ]).
        assert (Hin' : In y (x :: l))
          by (eapply Permutation_in; [ apply Permutation_sym, Hp | now left ]).
        destruct Hin as [ -> | Hin ]; [ reflexivity | ].
        destruct Hin' as [ -> | Hin' ]; [ reflexivity | ].
        apply Hanti; simpl; auto. }
      f_equal. apply IH; auto.
      * intros a b Ha Hb. apply Hanti; simpl; auto.
      * now apply Permutation_cons_inv in Hp.
Qed.

Lemma string_notAfter_antisym (a b : string) :
  notAfter String.compare a b -> notAfter String.compare b a -> a = b.
Proof.
  unfold notAfter. intros Hab Hba. apply String.compare_eq_iff.
  rewrite String.compare_antisym in Hba.
  destruct (String.compare a b); simpl in *; congruence.
Qed.

Lemma sort_strings_sorted (l : list string) :
  StronglySorted (notAfter String.compare) (sort_strings l).
Proof.
  apply js_sort_StronglySorted.
  - apply String.compare_antisym.
  - apply string_compare_trans.
Qed.

Lemma sort_strings_perm_eq (l l' : list string) :
  Permutation l l' -> sort_strings l = sort_strings l'.
Proof.
  intro Hp. apply (sorted_perm_eq String.compare);
    try apply sort_strings_sorted.
  { intros a b _ _. apply string_notAfter_antisym. }
  eapply perm_trans; [ apply Permutation_sym, js_sort_perm | ].
  eapply perm_trans; [ exact Hp | apply js_sort_perm ].
Qed.

Lemma sortDefault_strings (names : list string) :
  sortDefault (map JString names) = map JString (sort_strings names).
Proof.
  unfold sortDefault, sort_strings.
  induction names as [ | x names IH ]; simpl; [ reflexivity | ].
  rewrite IH. generalize (js_sort String.compare names). intro l.
  induction l as [ | y l IHl ]; simpl; [ reflexivity | ].
  unfold compareDefault at 1. simpl.
  destruct (String.compare x y); simpl; try reflexivity.
  now rewrite IHl.
Qed.

Lemma join_strings (sep : string) (names : list string) :
  join sep (map JString names) = Some (String.concat sep names).
Proof.
  unfold join. assert (H : joinPieces (map JString names) = Some names).
  { induction names as [ | x names IH ]; simpl; [ reflexivity | ]. now rewrite IH. }
  now rewrite H.
Qed.

(** The key is read off the [@type] property alone. *)
Lemma getSchemaType_by_type (schema : json) :
  getSchemaType schema =
  match getProp "@type" schema with
  | Some (JString s) => Some s
  | Some (JArray types) => join ", " (sortDefault types)
  | Some (JObject props) => Some (stringify (JObject props))
  | _ => Some "unknown"
  end.
Proof.
  unfold getSchemaType. destruct schema as [ | [ | ] | repr | s | items | props ];
    simpl; try reflexivity.
  - destruct (String.eqb repr "0"); reflexivity.
  - destruct (String.eqb s ""); reflexivity.
Qed.

Lemma obj_get_replace {A : Type} (k : string) (v : A) (o : list (string * A)) :
  obj_get k o <> None -> obj_get k (obj_replace k v o) = Some v.
Proof.
  induction o as [ | [k' v'] o IH ]; simpl; [ congruence | ].
  destruct (String.eqb k k') eqn:E; simpl; rewrite E; auto.
Qed.

(** C5, as the code has it: the key [getSchemaType] returns is a function
    of the [@type] property: a string gives that string, an array of
    strings gives its entries sorted by code units and joined by a comma
    and a space, whatever order they came in, and no [@type] gives
    [unknown].  The call is not free of effects: it sorts an array-valued
    [@type] of its argument in place. *)
Theorem getSchemaType_key :
  (forall s1 s2, getProp "@type" s1 = getProp "@type" s2 ->
                 getSchemaType s1 = getSchemaType s2)
  /\ (forall schema s, getProp "@type" schema = Some (JString s) ->
                       getSchemaType schema = Some s)
  /\ (forall schema names,
        getProp "@type" schema = Some (JArray (map JString names)) ->
        getSchemaType schema = Some (String.concat ", " (sort_strings names)))
  /\ (forall s1 s2 names1 names2,
        getProp "@type" s1 = Some (JArray (map JString names1)) ->
        getProp "@type" s2 = Some (JArray (map JString names2)) ->
        Permutation names1 names2 ->
        getSchemaType s1 = getSchemaType s2)
  /\ (forall schema, getProp "@type" schema = None ->
                     getSchemaType schema = Some "unknown")
  /\ (forall schema types,
        getProp "@type" schema = Some (JArray types) ->
        getProp "@type" (getSchemaType_leaves schema)
        = Some (JArray (sortDefault types)))
  /\ getSchemaType (JObject [("@type", JString "Product")]) = Some "Product"
  /\ getSchemaType (JObject [("@type", JArray [JString "Product"; JString "Book"])])
     = Some "Book, Product"
  /\ getSchemaType (JObject [("@type", JArray [JString "Book"; JString "Product"])])
     = Some "Book, Product"
  /\ getSchemaType (JObject [("name", JString "x")]) = Some "unknown".
Proof.
  assert (Harr : forall schema names,
             getProp "@type" schema = Some (JArray (map JString names)) ->
             getSchemaType schema = Some (String.concat ", " (sort_strings names))).
  { intros schema names H. rewrite getSchemaType_by_type, H.
    rewrite sortDefault_strings. apply join_strings. }
  repeat split; try reflexivity.
  - intros s1 s2 H. now rewrite !getSchemaType_by_type, H.
  - intros schema s H. now rewrite getSchemaType_by_type, H.
  - exact Harr.
  - intros s1 s2 names1 names2 H1 H2 Hp.
    rewrite (Harr _ _ H1), (Harr _ _ H2). now rewrite (sort_strings_perm_eq _ _ Hp).
  - intros schema H. now rewrite getSchemaType_by_type, H.
  - intros [ | | | | | props ] types H; simpl in H; try discriminate.
    simpl. rewrite H. simpl. apply obj_get_replace. congruence.
Qed.

(** C5, as the specification has it, fails: the call is not pure, it
    leaves the [@type] array of its argument sorted. *)
Lemma getSchemaType_sorts_argument :
  getSchemaType (JObject [("@type", JArray [JString "Product"; JString "Book"])])
  = Some "Book, Product"
  /\ getSchemaType_leaves
       (JObject [("@type", JArray [JString "Product"; JString "Book"])])
     = JObject [("@type", JArray [JString "Book"; JString "Product"])]
  /\ getSchemaType_leaves
       (JObject [("@type", JArray [JString "Product"; JString "Book"])])
     <> JObject [("@type", JArray [JString "Product"; JString "Book"])].
Proof.
  split; [ reflexivity | ]. split; [ reflexivity | ]. discriminate.
Qed.

(* ================================================================== *)
(** * extractJsonLdSchemas *)

Section ExtractionFacts.
Variable JSON_parse : string -> option json.

Let step := extractBlock JSON_parse.

(** The loop adds to what it was handed. *)
Lemma collect_from (url : string) (blocks : list string)
  (st : list json * list string) :
  fold_left (step url) blocks st
  = ((fst st ++ fst (collectBlocks JSON_parse blocks url))%list,
     (snd st ++ snd (collectBlocks JSON_parse blocks url))%list).
Proof.
  unfold collectBlocks. fold step. revert st.
  induction blocks as [ | b blocks IH ]; intros [sc ws]; simpl.
  - now rewrite !app_nil_r.
  - rewrite IH. rewrite (IH (step url ([], []) b)).
    unfold step, extractBlock; simpl.
    destruct (String.eqb b ""); simpl; [ reflexivity | ].
    destruct (JSON_parse b) as [ [ | | | | | ] | ]; simpl;
      rewrite <- ?app_assoc; reflexivity.
Qed.


Lemma collectBlocks_cons (url : string) (b : string) (post : list string) :
  collectBlocks JSON_parse (b :: post) url
  = ((blockInstances JSON_parse b
      ++ fst (collectBlocks JSON_parse post url))%list,
     ((if String.eqb b "" then []
       else match JSON_parse b with
            | Some _ => []
            | None => [parseWarning url]
            end)
      ++ snd (collectBlocks JSON_parse post url))%list).
Proof.
  unfold collectBlocks at 1. simpl. fold step. rewrite collect_from.
  unfold step, extractBlock, blockInstances.
  destruct (String.eqb b ""); simpl; [ reflexivity | ].
  destruct (JSON_parse b) as [ [ | | | | | ] | ]; reflexivity.
Qed.

(** The schemas collected are what the blocks that parse contribute,
    block after block. *)
Lemma collectBlocks_schemas (url : string) (blocks : list string) :
  fst (collectBlocks JSON_parse blocks url)
  = flat_map (blockInstances JSON_parse) blocks.
Proof.
  induction blocks as [ | b blocks IH ]; [ reflexivity | ].
  rewrite collectBlocks_cons. simpl. now rewrite IH.
Qed.

End ExtractionFacts.

(* ================================================================== *)
(** * compareSchemas *)

Lemma setOf_from_In (keys seen : list string) (t : string) :
  In t (fold_left
          (fun seen k =>
             if existsb (String.eqb k) seen then seen else (seen ++ [k])%list)
          keys seen)
  <-> In t seen \/ In t keys.
Proof.
  revert seen. induction keys as [ | k keys IH ]; intro seen; simpl.
  - tauto.
  - rewrite IH. destruct (existsb (String.eqb k) seen) eqn:E.
    + apply existsb_exists in E. destruct E as (x & Hx & Hkx).
      apply String.eqb_eq in Hkx. subst x.
      split; [ tauto | ]. intros [ H | [ <- | H ] ]; auto.
    + rewrite in_app_iff. simpl. tauto.
Qed.

Lemma setOf_In (keys : list string) (t : string) : In t (setOf keys) <-> In t keys.
Proof. unfold setOf. rewrite setOf_from_In. simpl. tauto. Qed.

Section ComparisonFacts.
Variable collationKey : string -> list N.

Lemma identical_iff (t : string) (schemas1 schemas2 : list json) :
  identical (compareSchemasOfType collationKey t schemas1 schemas2) = true
  <-> differences (compareSchemasOfType collationKey t schemas1 schemas2) = [].
Proof.
  unfold compareSchemasOfType. simpl.
  destruct (diff _ _) as [ [ | c d ] | ]; simpl; split; congruence.
Qed.

Lemma typeComparisons_map (schemas1 schemas2 : JsonLdSchema) :
  typeComparisons (compareSchemas collationKey schemas1 schemas2)
  = map (fun t => compareSchemasOfType collationKey t
                    (bucketOf (schemasByType schemas1) t)
                    (bucketOf (schemasByType schemas2) t))
      (allTypes schemas1 schemas2).
Proof.
  unfold compareSchemas. simpl.
  generalize (allTypes schemas1 schemas2). intro ts.
  set (g := fun t => compareSchemasOfType collationKey t
                       (bucketOf (schemasByType schemas1) t)
                       (bucketOf (schemasByType schemas2) t)).
  assert (H : forall acc,
             fold_left (fun comparisons t => (comparisons ++ [g t])%list) ts acc
             = (acc ++ map g ts)%list).
  { induction ts as [ | t ts IH ]; intro acc; simpl.
    - now rewrite app_nil_r.
    - rewrite IH, <- app_assoc. reflexivity. }
  apply (H []).
Qed.

(** [allTypesIdentical] is true exactly when, for every type key of
    either side, the list of differences of that type is empty; there is
    one comparison per key of the union; and a comparison with a
    difference makes the flag false. *)
Lemma allTypesIdentical_iff_differences (schemas1 schemas2 : JsonLdSchema) :
  (allTypesIdentical (compareSchemas collationKey schemas1 schemas2) = true
   <-> forall t,
         In t (map fst (schemasByType schemas1))
         \/ In t (map fst (schemasByType schemas2)) ->
         differences
           (compareSchemasOfType collationKey t
              (bucketOf (schemasByType schemas1) t)
              (bucketOf (schemasByType schemas2) t)) = [])
  /\ (forall t,
        In t (map type (typeComparisons
                          (compareSchemas collationKey schemas1 schemas2)))
        <-> In t (map fst (schemasByType schemas1))
            \/ In t (map fst (schemasByType schemas2)))
  /\ (forall c,
        In c (typeComparisons (compareSchemas collationKey schemas1 schemas2)) ->
        count1 c = count2 c -> differences c <> [] ->
        allTypesIdentical (compareSchemas collationKey schemas1 schemas2)
        = false).
Proof.
  assert (Hall : allTypesIdentical (compareSchemas collationKey schemas1 schemas2)
                 = forallb identical
                     (typeComparisons
                        (compareSchemas collationKey schemas1 schemas2)))
    by reflexivity.
  assert (Hkeys : forall t, In t (allTypes schemas1 schemas2)
                    <-> In t (map fst (schemasByType schemas1))
                        \/ In t (map fst (schemasByType schemas2))).
  { intro t. unfold allTypes. rewrite setOf_In. apply in_app_iff. }
  split; [ | split ].
  - rewrite Hall, typeComparisons_map, forallb_forall. split.
    + intros H t Ht. apply identical_iff. apply H.
      apply in_map_iff. exists t. split; [ reflexivity | now apply Hkeys ].
    + intros H c Hc. apply in_map_iff in Hc. destruct Hc as (t & <- & Ht).
      apply identical_iff. apply H. now apply Hkeys.
  - intro t. rewrite typeComparisons_map, map_map. simpl.
    rewrite map_id. apply Hkeys.
  - intros c Hc _ Hd. rewrite Hall. apply not_true_is_false. intro Hf.
    rewrite forallb_forall in Hf. specialize (Hf c Hc).
    rewrite typeComparisons_map in Hc. apply in_map_iff in Hc.
    destruct Hc as (t & <- & _). now apply identical_iff in Hf.
Qed.
End ComparisonFacts.

(** Two pages whose single [Product] differs in its name: one instance on
    each side, one edit, and the flag is false. *)
Lemma allTypesIdentical_changed_name :
  map differences (typeComparisons (compareSchemas cldrRootKey pageOld pageNew))
  = [[DiffEdit [PIndex 0; PKey "name"] (JString "Old") (JString "New")]]
  /\ allTypesIdentical (compareSchemas cldrRootKey pageOld pageNew) = false.
Proof.
  split; [ reflexivity | ].
  destruct (allTypesIdentical_iff_differences cldrRootKey pageOld pageNew)
    as (_ & _ & H).
  apply (H (compareSchemasOfType cldrRootKey "Product"
              (bucketOf (schemasByType pageOld) "Product")
              (bucketOf (schemasByType pageNew) "Product"))).
  - left. reflexivity.
  - reflexivity.
  - discriminate.
Defined.

(* ================================================================== *)
(** * transformHtml *)

Lemma node_nested_ind (P : node -> Prop) :
  (forall name attribs children,
      Forall P children -> P (Element name attribs children)) ->
  (forall data, P (Text data)) ->
  (forall data, P (Comment data)) ->
  (forall data, P (Directive data)) ->
  forall n, P n.
Proof.
  intros Helem Htext Hcomment Hdir.
  fix IH 1.
  intros [ name attribs children | data | data | data ].
  - apply Helem. induction children as [ | c children IHc ]; constructor.
    + apply IH.
    + exact IHc.
  - apply Htext.
  - apply Hcomment.
  - apply Hdir.
Qed.

(** What is left below an emptied [svg] holds no element. *)
Lemma elementsOf_removeElementChildren (children : list node) :
  flat_map elementsOf (removeElementChildren children) = [].
Proof.
  unfold removeElementChildren.
  induction children as [ | c children IH ]; simpl; [ reflexivity | ].
  destruct c; simpl; auto.
Qed.

Lemma removeElementChildren_no_element (children : list node) :
  filter isElement (removeElementChildren children) = [].
Proof.
  unfold removeElementChildren.
  induction children as [ | c children IH ]; simpl; [ reflexivity | ].
  destruct c; simpl; auto.
Qed.

Lemma filter_filter {A : Type} (f g : A -> bool) (l : list A) :
  filter g (filter f l) = filter (fun x => (f x && g x)%bool) l.
Proof.
  induction l as [ | x l IH ]; simpl; [ reflexivity | ].
  destruct (f x); simpl; [ destruct (g x); now rewrite IH | exact IH ].
Qed.

Lemma filter_fixed {A : Type} (f : A -> bool) (l : list A) :
  (forall x, In x l -> f x = true) -> filter f l = l.
Proof.
  induction l as [ | x l IH ]; intro H; simpl; [ reflexivity | ].
  rewrite (H x) by now left. f_equal. apply IH. intros y Hy. apply H. now right.
Qed.

Lemma notNamed_In (names : list string) (kv : string * string) :
  notNamed names kv = true <-> ~ In (fst kv) names.
Proof.
  unfold notNamed. rewrite negb_true_iff. split.
  - intros H Hin.
    assert (E : existsb (String.eqb (fst kv)) names = true).
    { apply existsb_exists. exists (fst kv). split; [ exact Hin | ].
      apply String.eqb_refl. }
    congruence.
  - intro H. apply not_true_is_false. intro E. apply H.
    apply existsb_exists in E. destruct E as (x & Hx & E).
    apply String.eqb_eq in E. now subst x.
Qed.

(** What the calls of [removeAttribute] for a list of names leave. *)
Lemma removeAttribute_names (names : list string) (attribs : list (string * string)) :
  fold_left (fun remaining attrName => removeAttribute attrName remaining)
    names attribs
  = filter (notNamed names) attribs.
Proof.
  revert attribs. induction names as [ | name names IH ]; intro attribs; simpl.
  - symmetry. now apply filter_fixed.
  - rewrite IH. unfold removeAttribute. rewrite filter_filter.
    apply filter_ext. intros [k v]. unfold notNamed. simpl.
    now rewrite negb_orb.
Qed.

Lemma removeAttr_filter (name : string) (attribs : list (string * string)) :
  removeAttr name attribs = filter (notNamed (splitNames name)) attribs.
Proof. apply removeAttribute_names. Qed.

(** What a loop of [removeAttr] leaves: the attributes that none of the
    names, split at white space, names. *)
Lemma removeAttrs_filter (names : list string) (attribs : list (string * string)) :
  removeAttrs names attribs
  = filter (notNamed (flat_map splitNames names)) attribs.
Proof.
  unfold removeAttrs. revert attribs.
  induction names as [ | name names IH ]; intro attribs; simpl.
  - symmetry. now apply filter_fixed.
  - rewrite IH, removeAttr_filter, filter_filter.
    apply filter_ext. intros [k v]. unfold notNamed. simpl.
    now rewrite existsb_app, negb_orb.
Qed.

Lemma removeAttrs_In (names : list string) (attribs : list (string * string))
  (kv : string * string) :
  In kv (removeAttrs names attribs)
  <-> In kv attribs /\ ~ In (fst kv) (flat_map splitNames names).
Proof. now rewrite removeAttrs_filter, filter_In, notNamed_In. Qed.

Lemma trimEnd_singleName (k : string) :
  existsb isWhiteSpace (list_ascii_of_string k) = false -> trimEnd k = k.
Proof.
  induction k as [ | c k IH ]; simpl; [ reflexivity | ].
  intro H. apply orb_false_iff in H. destruct H as [ Hc Hk ].
  rewrite Hc. simpl. now rewrite IH.
Qed.

Lemma splitSpaces_singleName (k : string) :
  existsb isWhiteSpace (list_ascii_of_string k) = false -> splitSpaces k = [k].
Proof.
  induction k as [ | c k IH ]; simpl; [ reflexivity | ].
  intro H. apply orb_false_iff in H. destruct H as [ Hc Hk ].
  rewrite Hc. now rewrite IH.
Qed.

(** A name that is not empty and holds no white space is one name. *)
Lemma splitNames_singleName (k : string) :
  singleName k = true -> splitNames k = [k].
Proof.
  unfold singleName, splitNames. intro H. apply andb_true_iff in H.
  destruct H as [ Hne Hws ]. apply negb_true_iff in Hne, Hws. rewrite Hne.
  assert (Ht : trim k = k).
  { unfold trim. destruct k as [ | c k ]; [ reflexivity | ].
    simpl in Hws. apply orb_false_iff in Hws. destruct Hws as [ Hc Hk ].
    simpl trimStart. rewrite Hc. apply trimEnd_singleName. simpl.
    now rewrite Hc, Hk. }
  rewrite Ht. now apply splitSpaces_singleName.
Qed.

(** An attribute that a loop of [removeAttr] over its name leaves has a
    name that is empty or holds white space. *)
Lemma removeAttrs_singleName (names : list string)
  (attribs : list (string * string)) (k v : string) :
  In (k, v) (removeAttrs names attribs) -> In k names -> singleName k = false.
Proof.
  intros Hin Hk. apply removeAttrs_In in Hin. destruct Hin as [ _ Hin ].
  apply not_true_is_false. intro Hs. apply Hin. simpl.
  apply in_flat_map. exists k. split; [ exact Hk | ].
  rewrite (splitNames_singleName k Hs). now left.
Qed.

(** Calling [removeAttr] again with some of the names changes nothing. *)
Lemma removeAttrs_fixed (names names' : list string)
  (attribs remaining : list (string * string)) :
  incl remaining (removeAttrs names attribs) ->
  incl names' names ->
  removeAttrs names' remaining = remaining.
Proof.
  intros Hc Hn. rewrite removeAttrs_filter. apply filter_fixed.
  intros kv Hin. apply notNamed_In. intro Hp.
  apply Hc, removeAttrs_In in Hin. destruct Hin as [ _ Hin ]. apply Hin.
  apply in_flat_map in Hp. destruct Hp as (name & Hname & Hp).
  apply in_flat_map. exists name. split; [ now apply Hn | exact Hp ].
Qed.

Lemma removeAttrs_keys (names : list string) (attribs : list (string * string)) :
  incl (map fst (removeAttrs names attribs)) (map fst attribs).
Proof.
  intros k Hk. apply in_map_iff in Hk. destruct Hk as (kv & <- & Hin).
  apply removeAttrs_In in Hin. apply in_map, Hin.
Qed.

Lemma emptySvg_elements (n e : node) :
  In e (elementsOf (emptySvg n)) -> hasName "svg" e = true ->
  (exists attribs,
      attributes e = removeAttrs (map fst attribs) attribs)
  /\ filter isElement (childNodes e) = [].
Proof.
  revert e. induction n as [ name attribs children IH | | | ]
    using node_nested_ind; intros e He Hsvg; simpl in He; try contradiction.
  destruct (String.eqb name "svg") eqn:E.
  - apply String.eqb_eq in E. subst name. simpl in He.
    rewrite elementsOf_removeElementChildren in He.
    destruct He as [ <- | [] ]. simpl. split; [ now exists attribs | ].
    apply removeElementChildren_no_element.
  - simpl in He. destruct He as [ <- | He ].
    + simpl in Hsvg. congruence.
    + apply in_flat_map in He. destruct He as (c & Hc & He).
      apply in_map_iff in Hc. destruct Hc as (c0 & <- & Hc0).
      rewrite Forall_forall in IH. now apply (IH c0 Hc0).
Qed.




(* ================================================================== *)
(** * Own properties: reading after writing *)

Section OwnPropertyFacts.
Context {A : Type}.
Implicit Types (o : list (string * A)) (k : string) (v : A).

Lemma obj_has_In k o : obj_has k o = true <-> In k (map fst o).
Proof.
  unfold obj_has. rewrite existsb_exists, in_map_iff. split.
  - intros (kv & Hin & E). apply String.eqb_eq in E. exists kv. auto.
  - intros (kv & E & Hin). exists kv. split; [ exact Hin | ].
    apply String.eqb_eq. auto.
Qed.

Lemma obj_get_In k o v : obj_get k o = Some v -> In k (map fst o).
Proof.
  induction o as [ | [k' v'] o IH ]; simpl; [ discriminate | ].
  destruct (String.eqb_spec k k'); auto.
Qed.

Lemma obj_get_None k o : ~ In k (map fst o) -> obj_get k o = None.
Proof.
  induction o as [ | [k' v'] o IH ]; simpl; [ reflexivity | ].
  intro H. destruct (String.eqb_spec k k'); [ subst; tauto | tauto ].
Qed.

Lemma obj_get_Some_iff k o : obj_get k o <> None <-> In k (map fst o).
Proof.
  split.
  - destruct (obj_get k o) eqn:E; [ intros _ | congruence ].
    eapply obj_get_In, E.
  - intros Hin E. revert Hin.
    induction o as [ | [k' v'] o IH ]; simpl in *; [ tauto | ].
    destruct (String.eqb_spec k k'); [ discriminate | ].
    intros [ H | H ]; [ congruence | auto ].
Qed.

Lemma obj_get_obj_replace k k' v o :
  obj_get k (obj_replace k' v o)
  = if String.eqb k k' then option_map (fun _ => v) (obj_get k o) else obj_get k o.
Proof.
  induction o as [ | [k0 v0] o IH ]; simpl.
  - now destruct (String.eqb k k').
  - destruct (String.eqb_spec k' k0) as [ <- | Hne ]; simpl.
    + destruct (String.eqb_spec k k'); reflexivity.
    + rewrite IH. destruct (String.eqb_spec k k0) as [ -> | ].
      * destruct (String.eqb_spec k0 k'); [ congruence | reflexivity ].
      * reflexivity.
Qed.

Lemma map_fst_obj_replace k v o : map fst (obj_replace k v o) = map fst o.
Proof.
  induction o as [ | [k0 v0] o IH ]; simpl; [ reflexivity | ].
  destruct (String.eqb k k0); simpl; congruence.
Qed.

Lemma obj_get_obj_insert_index n k k' v o :
  ~ In k' (map fst o) ->
  obj_get k (obj_insert_index n k' v o)
  = if String.eqb k k' then Some v else obj_get k o.
Proof.
  induction o as [ | [k0 v0] o IH ]; simpl; intro Hnin.
  - reflexivity.
  - assert (Hk0 : k0 <> k') by tauto.
    assert (Hhere : obj_get k ((k', v) :: (k0, v0) :: o)
                    = if String.eqb k k' then Some v
                      else if String.eqb k k0 then Some v0 else obj_get k o)
      by reflexivity.
    destruct (arrayIndex k0) as [ m | ]; [ destruct (m <? n)%N | ];
      try exact Hhere.
    simpl. rewrite IH by tauto.
    destruct (String.eqb_spec k k0) as [ -> | ]; [ | reflexivity ].
    destruct (String.eqb_spec k0 k'); [ congruence | reflexivity ].
Qed.

Lemma obj_get_app k o o' :
  obj_get k (o ++ o')
  = match obj_get k o with Some w => Some w | None => obj_get k o' end.
Proof.
  induction o as [ | [k0 v0] o IH ]; simpl; [ reflexivity | ].
  destruct (String.eqb k k0); auto.
Qed.

(** Reading [k] after [o[k'] = v]. *)
Lemma obj_get_obj_set k k' v o :
  obj_get k (obj_set k' v o)
  = if (String.eqb k k' && negb (String.eqb k' "__proto__"))%bool
    then Some v else obj_get k o.
Proof.
  unfold obj_set.
  destruct (String.eqb k' "__proto__"); simpl.
  - now rewrite andb_false_r.
  - rewrite andb_true_r. destruct (obj_has k' o) eqn:Hhas.
    + rewrite obj_get_obj_replace.
      destruct (String.eqb_spec k k') as [ -> | ]; [ | reflexivity ].
      apply obj_has_In, obj_get_Some_iff in Hhas.
      destruct (obj_get k' o); [ reflexivity | congruence ].
    + assert (Hnin : ~ In k' (map fst o)).
      { intro H. apply obj_has_In in H. congruence. }
      destruct (arrayIndex k') as [ n | ].
      * now apply obj_get_obj_insert_index.
      * rewrite obj_get_app. simpl.
        destruct (String.eqb_spec k k') as [ -> | ].
        -- now rewrite (obj_get_None _ _ Hnin).
        -- now destruct (obj_get k o).
Qed.

(** Reading [k] after the whole loop. *)
Lemma obj_get_assignKeys (values : list (string * A)) keys k o :
  obj_get k (assignKeys values keys o)
  = match assigned values keys k with
    | Some v => Some v
    | None => obj_get k o
    end.
Proof.
  unfold assignKeys, assigned. revert o.
  induction keys as [ | k0 keys IH ]; intro o; simpl; [ reflexivity | ].
  rewrite IH. clear IH.
  destruct (String.eqb_spec k "__proto__") as [ -> | Hproto ]; simpl.
  - rewrite !andb_false_r.
    destruct (obj_get k0 values) as [ v0 | ]; [ | reflexivity ].
    rewrite obj_get_obj_set.
    destruct (String.eqb_spec "__proto__" k0) as [ <- | ]; reflexivity.
  - rewrite !andb_true_r.
    destruct (existsb (String.eqb k) keys) eqn:Ex.
    + rewrite orb_true_r. destruct (obj_get k values) eqn:Ev; [ reflexivity | ].
      destruct (obj_get k0 values) as [ v0 | ] eqn:E0; [ | reflexivity ].
      rewrite obj_get_obj_set.
      destruct (String.eqb_spec k k0) as [ -> | ]; [ congruence | reflexivity ].
    + rewrite orb_false_r.
      destruct (String.eqb_spec k k0) as [ <- | Hne ].
      * destruct (obj_get k values) as [ v0 | ]; [ | reflexivity ].
        rewrite obj_get_obj_set, String.eqb_refl. simpl.
        destruct (String.eqb_spec k "__proto__"); [ tauto | reflexivity ].
      * destruct (obj_get k0 values) as [ v0 | ]; [ | reflexivity ].
        rewrite obj_get_obj_set.
        destruct (String.eqb_spec k k0); [ tauto | reflexivity ].
Qed.
End OwnPropertyFacts.

(* ================================================================== *)
(** * Own properties: the order of enumeration *)

Lemma arrayIndex_inj (k k' : string) (n : N) :
  arrayIndex k = Some n -> arrayIndex k' = Some n -> k = k'.
Proof.
  unfold arrayIndex. intros H H'.
  destruct (parseDigits 0 k) as [ m | ]; [ | discriminate ].
  destruct (parseDigits 0 k') as [ m' | ]; [ | discriminate ].
  destruct ((m <? 4294967295)%N && String.eqb (printN m) k)%bool eqn:E;
    [ | discriminate ].
  destruct ((m' <? 4294967295)%N && String.eqb (printN m') k')%bool eqn:E';
    [ | discriminate ].
  apply andb_true_iff in E, E'. destruct E as [ _ E ], E' as [ _ E' ].
  apply String.eqb_eq in E, E'. congruence.
Qed.

Lemma string_compare_lt_trans (a b c : string) :
  String.compare a b = Lt -> String.compare b c = Lt -> String.compare a c = Lt.
Proof.
  intros Hab Hbc.
  assert (Hac : String.compare a c <> Gt)
    by (apply string_compare_trans with b; congruence).
  destruct (String.compare a c) eqn:E; [ | reflexivity | congruence ].
  apply String.compare_eq_iff in E. subst c.
  rewrite String.compare_antisym, Hab in Hbc. discriminate.
Qed.

Lemma propBefore_irrefl (k : string) : ~ propBefore k k.
Proof.
  unfold propBefore. destruct (arrayIndex k).
  - apply N.lt_irrefl.
  - rewrite string_compare_refl. discriminate.
Qed.

Lemma propBefore_trans (a b c : string) :
  propBefore a b -> propBefore b c -> propBefore a c.
Proof.
  unfold propBefore.
  destruct (arrayIndex a), (arrayIndex b), (arrayIndex c); try tauto.
  - apply N.lt_trans.
  - apply string_compare_lt_trans.
Qed.

Lemma StronglySorted_app_one {B : Type} (R : B -> B -> Prop) (l : list B) (y : B) :
  StronglySorted R l -> Forall (fun x => R x y) l -> StronglySorted R (l ++ [y]).
Proof.
  induction 1 as [ | x l Hl IH Hx ]; intro Hy; simpl.
  - repeat constructor.
  - inversion Hy; subst. constructor; [ auto | ].
    apply Forall_app. split; [ exact Hx | ]. constructor; [ assumption | constructor ].
Qed.

Section EnumerationFacts.
Context {A : Type}.
Implicit Types (o : list (string * A)) (k : string) (v : A).

Lemma obj_insert_index_keys n k v o k' :
  In k' (map fst (obj_insert_index n k v o)) <-> k' = k \/ In k' (map fst o).
Proof.
  induction o as [ | [k0 v0] o IH ]; simpl.
  - intuition.
  - destruct (arrayIndex k0) as [ m | ]; [ destruct (m <? n)%N | ]; simpl;
      try rewrite IH; intuition.
Qed.

Lemma obj_insert_index_sorted n k v o :
  arrayIndex k = Some n -> ~ In k (map fst o) ->
  StronglySorted propBefore (map fst o) ->
  StronglySorted propBefore (map fst (obj_insert_index n k v o)).
Proof.
  intros Hk. induction o as [ | [k0 v0] o IH ]; simpl; intros Hnin Hs.
  - repeat constructor.
  - inversion Hs as [ | ? ? Hs' H0 ]; subst.
    assert (Hfront : propBefore k k0 ->
                     StronglySorted propBefore (k :: k0 :: map fst o)).
    { intro Hb. constructor; [ exact Hs | ]. constructor; [ exact Hb | ].
      eapply Forall_impl; [ | exact H0 ].
      intros x Hx. now apply propBefore_trans with k0. }
    destruct (arrayIndex k0) as [ m | ] eqn:E0.
    + destruct (N.ltb_spec m n) as [ Hlt | Hge ]; simpl.
      * constructor; [ apply IH; tauto | ].
        apply Forall_forall. intros x Hx.
        apply obj_insert_index_keys in Hx. destruct Hx as [ -> | Hx ].
        -- unfold propBefore. now rewrite E0, Hk.
        -- rewrite Forall_forall in H0. auto.
      * apply Hfront. unfold propBefore. rewrite Hk, E0.
        assert (m <> n).
        { intros ->. apply Hnin. left. apply (arrayIndex_inj _ _ _ E0 Hk). }
        lia.
    + apply Hfront. unfold propBefore. now rewrite Hk, E0.
Qed.

Lemma obj_set_keys k v o k' :
  In k' (map fst (obj_set k v o)) -> k' = k \/ In k' (map fst o).
Proof.
  unfold obj_set. destruct (String.eqb k "__proto__"); [ tauto | ].
  destruct (obj_has k o).
  - rewrite map_fst_obj_replace. tauto.
  - destruct (arrayIndex k).
    + apply obj_insert_index_keys.
    + rewrite map_app, in_app_iff. simpl. intuition auto.
Qed.

(** Assigning a key that no key already there comes after keeps the
    properties in order. *)
Lemma obj_set_sorted k v o :
  StronglySorted propBefore (map fst o) ->
  (forall k', In k' (map fst o) -> notAfter String.compare k' k) ->
  StronglySorted propBefore (map fst (obj_set k v o)).
Proof.
  intros Hs Hle. unfold obj_set.
  destruct (String.eqb k "__proto__"); [ exact Hs | ].
  destruct (obj_has k o) eqn:Hhas.
  - now rewrite map_fst_obj_replace.
  - assert (Hnin : ~ In k (map fst o)).
    { intro H. apply obj_has_In in H. congruence. }
    destruct (arrayIndex k) as [ n | ] eqn:Ek.
    + now apply obj_insert_index_sorted.
    + rewrite map_app. simpl. apply StronglySorted_app_one; [ exact Hs | ].
      apply Forall_forall. intros x Hx. unfold propBefore. rewrite Ek.
      destruct (arrayIndex x); [ exact I | ].
      specialize (Hle x Hx). unfold notAfter in Hle.
      destruct (String.compare x k) eqn:E; [ | reflexivity | congruence ].
      apply String.compare_eq_iff in E. subst x. contradiction.
Qed.

Lemma assignKeys_keys (values : list (string * A)) keys o k :
  In k (map fst (assignKeys values keys o)) -> In k keys \/ In k (map fst o).
Proof.
  unfold assignKeys. revert o.
  induction keys as [ | k0 keys IH ]; intro o; simpl; [ tauto | ].
  intro H. apply IH in H. destruct H as [ H | H ]; [ tauto | ].
  destruct (obj_get k0 values); [ | tauto ].
  apply obj_set_keys in H. intuition.
Qed.

(** The loop over keys sorted by code units builds its properties in
    the order of enumeration. *)
Lemma assignKeys_sorted (values : list (string * A)) keys o :
  StronglySorted (notAfter String.compare) keys ->
  StronglySorted propBefore (map fst o) ->
  (forall k' k, In k' (map fst o) -> In k keys -> notAfter String.compare k' k) ->
  StronglySorted propBefore (map fst (assignKeys values keys o)).
Proof.
  unfold assignKeys. intro Hkeys. revert o.
  induction Hkeys as [ | k0 keys Hkeys IH H0 ]; intros o Hs Hle; simpl;
    [ exact Hs | ].
  rewrite Forall_forall in H0.
  destruct (obj_get k0 values) as [ v0 | ].
  - apply IH.
    + apply obj_set_sorted; [ exact Hs | ]. intros k' Hk'. apply Hle; simpl; auto.
    + intros k' k Hk' Hk. apply obj_set_keys in Hk'. destruct Hk' as [ -> | Hk' ].
      * now apply H0.
      * apply Hle; simpl; auto.
  - apply IH; [ exact Hs | ]. intros k' k Hk' Hk. apply Hle; simpl; auto.
Qed.

(** Two objects in the order of enumeration that read alike are the same
    list of properties. *)
Lemma obj_ext o1 o2 :
  StronglySorted propBefore (map fst o1) ->
  StronglySorted propBefore (map fst o2) ->
  (forall k, obj_get k o1 = obj_get k o2) ->
  o1 = o2.
Proof.
  revert o2. induction o1 as [ | [k1 v1] o1 IH ]; intros [ | [k2 v2] o2 ] Hs1 Hs2 Hget.
  - reflexivity.
  - specialize (Hget k2). simpl in Hget. rewrite String.eqb_refl in Hget. discriminate.
  - specialize (Hget k1). simpl in Hget. rewrite String.eqb_refl in Hget. discriminate.
  - simpl in Hs1, Hs2.
    inversion Hs1 as [ | ? ? Hs1' H1 ]; inversion Hs2 as [ | ? ? Hs2' H2 ]; subst.
    rewrite Forall_forall in H1, H2.
    assert (Hk : k1 = k2).
    { destruct (String.eqb_spec k1 k2) as [ | Hne ]; [ assumption | exfalso ].
      pose proof (Hget k1) as G1. pose proof (Hget k2) as G2. simpl in G1, G2.
      rewrite String.eqb_refl in G1, G2.
      destruct (String.eqb_spec k1 k2); [ contradiction | ].
      destruct (String.eqb_spec k2 k1); [ congruence | ].
      symmetry in G1. apply obj_get_In, H2 in G1. apply obj_get_In, H1 in G2.
      apply (propBefore_irrefl k1). now apply propBefore_trans with k2. }
    subst k2.
    assert (Hn1 : ~ In k1 (map fst o1))
      by (intro H; apply (propBefore_irrefl k1); auto).
    assert (Hn2 : ~ In k1 (map fst o2))
      by (intro H; apply (propBefore_irrefl k1); auto).
    pose proof (Hget k1) as G. simpl in G. rewrite String.eqb_refl in G.
    injection G as ->. f_equal. apply IH; auto.
    intro k. specialize (Hget k). simpl in Hget.
    destruct (String.eqb_spec k k1) as [ E | E ]; [ | exact Hget ].
    rewrite E. now rewrite !obj_get_None.
Qed.
End EnumerationFacts.

(* ================================================================== *)
(** * normalizeSchema is idempotent *)

Lemma obj_get_map_values {A B : Type} (f : A -> B) (k : string)
  (o : list (string * A)) :
  obj_get k (map (fun kv => (fst kv, f (snd kv))) o) = option_map f (obj_get k o).
Proof.
  induction o as [ | [k0 v0] o IH ]; simpl; [ reflexivity | ].
  destruct (String.eqb k k0); auto.
Qed.

Lemma obj_get_In_pair {A : Type} (k : string) (v : A) (o : list (string * A)) :
  obj_get k o = Some v -> In (k, v) o.
Proof.
  induction o as [ | [k0 v0] o IH ]; simpl; [ discriminate | ].
  destruct (String.eqb_spec k k0) as [ -> | ].
  - intros [= ->]. now left.
  - auto.
Qed.

Lemma In_pair_obj_get {A : Type} (k : string) (v : A) (o : list (string * A)) :
  StronglySorted propBefore (map fst o) -> In (k, v) o -> obj_get k o = Some v.
Proof.
  induction o as [ | [k0 v0] o IH ]; simpl; [ tauto | ].
  intros Hs Hin. inversion Hs as [ | ? ? Hs' H0 ]; subst.
  destruct Hin as [ [= -> ->] | Hin ].
  - now rewrite String.eqb_refl.
  - destruct (String.eqb_spec k k0) as [ -> | ]; [ exfalso | auto ].
    rewrite Forall_forall in H0. apply (propBefore_irrefl k0), H0.
    apply in_map_iff. now exists (k0, v).
Qed.

Lemma map_fixed {A : Type} (f : A -> A) (l : list A) :
  Forall (fun x => f x = x) l -> map f l = l.
Proof. induction 1; simpl; congruence. Qed.

Lemma existsb_eqb_In (k : string) (keys : list string) :
  existsb (String.eqb k) keys = true <-> In k keys.
Proof.
  rewrite existsb_exists. split.
  - intros (x & Hx & E). apply String.eqb_eq in E. now subst.
  - intro H. exists k. split; [ exact H | apply String.eqb_refl ].
Qed.

(** An object in the order of enumeration, without [__proto__], whose
    values the function leaves alone, is rebuilt as it is. *)
Lemma assignKeys_fixed {A : Type} (f : A -> A) (o : list (string * A)) :
  StronglySorted propBefore (map fst o) ->
  ~ In "__proto__" (map fst o) ->
  Forall (fun kv => f (snd kv) = snd kv) o ->
  assignKeys (map (fun kv => (fst kv, f (snd kv))) o) (sort_strings (map fst o)) []
  = o.
Proof.
  intros Hs Hproto Hfix. apply obj_ext.
  - apply assignKeys_sorted.
    + apply sort_strings_sorted.
    + constructor.
    + simpl. tauto.
  - exact Hs.
  - intro k. rewrite obj_get_assignKeys. unfold assigned.
    rewrite obj_get_map_values. simpl.
    destruct (obj_get k o) as [ w | ] eqn:E; simpl.
    + assert (Hin : In k (map fst o)) by (eapply obj_get_In, E).
      assert (Hex : existsb (String.eqb k) (sort_strings (map fst o)) = true).
      { apply existsb_eqb_In. unfold sort_strings. now apply js_sort_In. }
      rewrite Hex. destruct (String.eqb_spec k "__proto__") as [ -> | ];
        [ contradiction | ].
      simpl. rewrite Forall_forall in Hfix.
      f_equal. apply (Hfix (k, w) (obj_get_In_pair _ _ _ E)).
    + now destruct (_ && _)%bool.
Qed.

Section Idempotence.
Variable collationKey : string -> list N.

Let normalize := normalizeSchema collationKey.

(** The properties [normalizeSchema] builds: in the order of enumeration,
    without [__proto__], each holding the normalized value of its key. *)
Lemma normalizeSchema_object (props : list (string * json)) :
  exists o,
    normalize (JObject props) = JObject o
    /\ StronglySorted propBefore (map fst o)
    /\ ~ In "__proto__" (map fst o)
    /\ (forall k w, In (k, w) o ->
          exists v, In (k, v) props /\ w = normalize v).
Proof.
  eexists. split; [ reflexivity | ].
  set (values := map (fun kv => (fst kv, normalizeSchema collationKey (snd kv))) props).
  assert (Hs : StronglySorted propBefore
                 (map fst (assignKeys values (sort_strings (map fst props)) []))).
  { apply assignKeys_sorted.
    - apply sort_strings_sorted.
    - constructor.
    - simpl. tauto. }
  split; [ exact Hs | ]. split.
  - intro H. apply obj_get_Some_iff in H. apply H.
    rewrite obj_get_assignKeys. unfold assigned. simpl.
    now rewrite andb_false_r.
  - intros k w Hin. apply (In_pair_obj_get _ _ _ Hs) in Hin.
    rewrite obj_get_assignKeys in Hin. unfold assigned in Hin. simpl in Hin.
    destruct (_ && _)%bool; [ | discriminate ].
    destruct (obj_get k values) as [ w' | ] eqn:E; [ | discriminate ].
    injection Hin as ->. unfold values in E. rewrite obj_get_map_values in E.
    destruct (obj_get k props) as [ v | ] eqn:Ev; [ | discriminate ].
    injection E as <-. exists v. split; [ now apply obj_get_In_pair | reflexivity ].
Qed.

(** C3: canonicalizing a canonical value changes nothing. *)
Theorem normalizeSchema_idempotent (v : json) :
  normalizeSchema collationKey (normalizeSchema collationKey v)
  = normalizeSchema collationKey v.
Proof.
  induction v as [ | b | repr | s | items IH | props IH ] using json_nested_ind;
    try reflexivity.
  - simpl. f_equal.
    rewrite map_fixed.
    + apply js_sort_idempotent.
      * apply compareSerialized_antisym.
      * apply compareSerialized_trans.
    + apply Forall_forall. intros x Hx. apply js_sort_In in Hx.
      apply in_map_iff in Hx. destruct Hx as (y & <- & Hy).
      rewrite Forall_forall in IH. now apply IH.
  - destruct (normalizeSchema_object props) as (o & Ho & Hs & Hproto & Hvals).
    unfold normalize in Ho. rewrite Ho. simpl. f_equal.
    apply assignKeys_fixed; auto.
    apply Forall_forall. intros [k w] Hin. simpl.
    destruct (Hvals k w Hin) as (v & Hv & ->).
    rewrite Forall_forall in IH. apply (IH (k, v) Hv).
Qed.
End Idempotence.

(* ================================================================== *)
(** * Order of the input *)

Lemma obj_get_perm {A : Type} (k : string) (o o' : list (string * A)) :
  NoDup (map fst o) -> Permutation o o' -> obj_get k o = obj_get k o'.
Proof.
  intros Hnd Hp. induction Hp as [ | [k0 v0] o o' Hp IH | [k0 v0] [k1 v1] o | o o' o'' Hp1 IH1 Hp2 IH2 ].
  - reflexivity.
  - simpl in *. inversion Hnd; subst. destruct (String.eqb k k0); auto.
  - simpl in *. inversion Hnd as [ | ? ? Hn ]; subst.
    destruct (String.eqb_spec k k0) as [ -> | ]; [ | reflexivity ].
    destruct (String.eqb_spec k0 k1) as [ -> | ]; [ | reflexivity ].
    exfalso. apply Hn. now left.
  - rewrite IH1 by assumption. apply IH2.
    eapply Permutation_NoDup; [ | exact Hnd ]. now apply Permutation_map.
Qed.

Section OrderOfInput.
Variable collationKey : string -> list N.

(** The properties of an object may come in any order. *)
Lemma normalizeSchema_object_permutation (props props' : list (string * json)) :
  NoDup (map fst props) -> Permutation props props' ->
  normalizeSchema collationKey (JObject props)
  = normalizeSchema collationKey (JObject props').
Proof.
  intros Hnd Hp. simpl. f_equal.
  rewrite (sort_strings_perm_eq (map fst props) (map fst props'))
    by now apply Permutation_map.
  apply obj_ext.
  - apply assignKeys_sorted; [ apply sort_strings_sorted | constructor | simpl; tauto ].
  - apply assignKeys_sorted; [ apply sort_strings_sorted | constructor | simpl; tauto ].
  - intro k. rewrite !obj_get_assignKeys. unfold assigned.
    rewrite !obj_get_map_values. now rewrite (obj_get_perm k props props').
Qed.

(** The elements of an array may come in any order as long as no two
    different normalized elements compare equal. *)
Lemma normalizeSchema_array_permutation (items items' : list json) :
  (forall a b,
      In a (map (normalizeSchema collationKey) items) ->
      In b (map (normalizeSchema collationKey) items) ->
      compareSerialized collationKey a b = Eq -> a = b) ->
  Permutation items items' ->
  normalizeSchema collationKey (JArray items)
  = normalizeSchema collationKey (JArray items').
Proof.
  intros Hties Hp. simpl. f_equal.
  apply (sorted_perm_eq (compareSerialized collationKey)).
  - intros a b Ha Hb Hab Hba. apply js_sort_In in Ha, Hb.
    apply Hties; auto. unfold notAfter in *.
    rewrite compareSerialized_antisym in Hba.
    destruct (compareSerialized collationKey a b); simpl in *; congruence.
  - apply js_sort_StronglySorted;
      [ apply compareSerialized_antisym | apply compareSerialized_trans ].
  - apply js_sort_StronglySorted;
      [ apply compareSerialized_antisym | apply compareSerialized_trans ].
  - eapply perm_trans; [ apply Permutation_sym, js_sort_perm | ].
    eapply perm_trans; [ | apply js_sort_perm ]. now apply Permutation_map.
Qed.
End OrderOfInput.

(** C4 at the input where the code fails it: two strings that differ by
    a soft hyphen compare equal, the stable sort leaves them as they came,
    and the two orders of one array normalize to different values. *)
Theorem normalizeSchema_order_of_ties :
  Permutation [JString aSoft; JString "a"] [JString "a"; JString aSoft]
  /\ localeCompare cldrRootKey (stringify (JString aSoft)) (stringify (JString "a"))
     = Eq
  /\ normalizeSchema cldrRootKey (JArray [JString aSoft; JString "a"])
     = JArray [JString aSoft; JString "a"]
  /\ normalizeSchema cldrRootKey (JArray [JString "a"; JString aSoft])
     = JArray [JString "a"; JString aSoft]
  /\ normalizeSchema cldrRootKey (JArray [JString aSoft; JString "a"])
     <> normalizeSchema cldrRootKey (JArray [JString "a"; JString aSoft]).
Proof.
  split; [ apply perm_swap | ]. split; [ reflexivity | ].
  split; [ reflexivity | ]. split; [ reflexivity | ].
  discriminate.
Qed.

(* ================================================================== *)
(** * The diff of two normalized values *)

Lemma json_equiv_refl (v : json) : json_equiv v v.
Proof.
  induction v as [ | b | repr | s | items IH | props IH ] using json_nested_ind;
    try constructor.
  - apply equiv_array with items; [ apply Permutation_refl | ].
    induction IH; constructor; auto.
  - apply equiv_object with props; [ apply Permutation_refl | ].
    induction IH; constructor; auto.
Qed.

Lemma distinctKeys_array (items : list json) :
  distinctKeys (JArray items) <-> Forall distinctKeys items.
Proof.
  simpl. induction items as [ | x items IH ].
  - split; constructor.
  - rewrite IH. split.
    + intros [ Hx Hl ]. now constructor.
    + intro H. inversion H; subst. tauto.
Qed.

Lemma distinctKeys_object (props : list (string * json)) :
  distinctKeys (JObject props)
  <-> NoDup (map fst props) /\ Forall (fun kv => distinctKeys (snd kv)) props.
Proof.
  simpl. apply and_iff_compat_l. induction props as [ | kv props IH ].
  - split; constructor.
  - rewrite IH. split.
    + intros [ Hx Hl ]. now constructor.
    + intro H. inversion H; subst. tauto.
Qed.

Lemma In_pair_obj_get_NoDup {A : Type} (k : string) (v : A) (o : list (string * A)) :
  NoDup (map fst o) -> In (k, v) o -> obj_get k o = Some v.
Proof.
  induction o as [ | [k0 v0] o IH ]; simpl; [ tauto | ].
  intros Hnd Hin. inversion Hnd as [ | ? ? Hn Hnd' ]; subst.
  destruct Hin as [ [= -> ->] | Hin ].
  - now rewrite String.eqb_refl.
  - destruct (String.eqb_spec k k0) as [ -> | ]; [ exfalso | auto ].
    apply Hn, in_map_iff. now exists (k0, v).
Qed.

Lemma concat_all_nil {A : Type} (ls : list (list A)) :
  Forall (fun l => l = []) ls -> List.concat ls = [].
Proof. induction 1 as [ | l ls -> _ IH ]; simpl; auto. Qed.

Lemma extraItems_none (mk : json -> change) (path : list pathKey) (items : list json) :
  extraItems mk path (List.length items) items = [].
Proof. unfold extraItems. now rewrite Nat.sub_diag. Qed.

(** A value has no difference with itself. *)
Lemma deepDiff_same (v : json) :
  distinctKeys v -> forall path, deepDiff v v path = [].
Proof.
  induction v as [ | b | repr | s | items IH | props IH ] using json_nested_ind;
    intros Hwf path; simpl.
  - reflexivity.
  - now rewrite Bool.eqb_reflx.
  - now rewrite String.eqb_refl.
  - now rewrite String.eqb_refl.
  - apply distinctKeys_array in Hwf.
    fold (extraItems (DiffNew []) path (List.length items) items).
    fold (extraItems (DiffDeleted []) path (List.length items) items).
    rewrite !extraItems_none. simpl.
    apply concat_all_nil, Forall_rev.
    generalize 0. induction items as [ | x items IHitems ]; intro i; constructor.
    + inversion IH; inversion Hwf; subst. auto.
    + inversion IH; inversion Hwf; subst. auto.
  - apply distinctKeys_object in Hwf. destruct Hwf as [ Hnd Hwf ].
    match goal with |- (?l ++ ?r)%list = [] => assert (Hl : l = []); [ | assert (Hr : r = []) ] end.
    + apply concat_all_nil.
      match goal with
      | |- Forall _ (?w ?a) =>
          assert (Hwalk : forall akeys, incl akeys props ->
                            Forall (fun l : list change => l = []) (w akeys))
      end.
      { induction akeys as [ | [k v] akeys IHa ]; intro Hsub; constructor.
        - assert (Hin : In (k, v) props) by (apply Hsub; now left).
          rewrite (In_pair_obj_get_NoDup _ _ _ Hnd Hin).
          rewrite Forall_forall in IH, Hwf.
          apply (IH (k, v) Hin). apply (Hwf (k, v) Hin).
        - apply IHa. intros x Hx. apply Hsub. now right. }
      apply Hwalk, incl_refl.
    + assert (Hnew : forall pkeys, incl pkeys props ->
                       flat_map
                         (fun kw : string * json =>
                            if (obj_has (fst kw) props || String.eqb (fst kw) "")%bool
                            then []
                            else [DiffNew (path ++ [PKey (fst kw)]) (snd kw)])
                         pkeys = []).
      { induction pkeys as [ | kw pkeys IHp ]; intro Hsub; simpl; [ reflexivity | ].
        assert (Hhas : obj_has (fst kw) props = true).
        { apply obj_has_In, in_map. apply Hsub. now left. }
        rewrite Hhas. simpl. apply IHp. intros x Hx. apply Hsub. now right. }
      apply Hnew, incl_refl.
    + now rewrite Hl, Hr.
Qed.

Lemma propBefore_sorted_NoDup (keys : list string) :
  StronglySorted propBefore keys -> NoDup keys.
Proof.
  induction 1 as [ | k keys Hs IH Hk ]; constructor; [ | exact IH ].
  intro Hin. rewrite Forall_forall in Hk. apply (propBefore_irrefl k). auto.
Qed.

Section SameValue.
Variable collationKey : string -> list N.

Lemma normalizeSchema_distinctKeys (v : json) :
  distinctKeys (normalizeSchema collationKey v).
Proof.
  induction v as [ | b | repr | s | items IH | props IH ] using json_nested_ind;
    try exact I.
  - apply distinctKeys_array. apply Forall_forall. intros x Hx.
    apply js_sort_In, in_map_iff in Hx. destruct Hx as (y & <- & Hy).
    rewrite Forall_forall in IH. auto.
  - destruct (normalizeSchema_object collationKey props)
      as (o & Ho & Hs & _ & Hvals).
    rewrite Ho. apply distinctKeys_object. split.
    + now apply propBefore_sorted_NoDup.
    + apply Forall_forall. intros [k w] Hin.
      destruct (Hvals k w Hin) as (v & Hv & ->).
      rewrite Forall_forall in IH. apply (IH (k, v) Hv).
Qed.

(** The part of C2 that holds: a value compared with itself has an empty
    diff, and a list of schemas compared with itself is identical. *)
Lemma diff_normalized_same (v : json) :
  diff (normalizeSchema collationKey v) (normalizeSchema collationKey v) = None.
Proof.
  unfold diff. now rewrite deepDiff_same by apply normalizeSchema_distinctKeys.
Qed.

Lemma compareSchemasOfType_same (t : string) (schemas : list json) :
  differences (compareSchemasOfType collationKey t schemas schemas) = []
  /\ identical (compareSchemasOfType collationKey t schemas schemas) = true.
Proof.
  unfold compareSchemasOfType. simpl.
  change (JArray (js_sort (compareSerialized collationKey)
                    (map (normalizeSchema collationKey) schemas)))
    with (normalizeSchema collationKey (JArray schemas)).
  rewrite diff_normalized_same. split; reflexivity.
Qed.
End SameValue.

(** C2 at the inputs where the code fails it.  In one direction, two
    arrays that differ by the order of their elements alone have a diff of
    two edits.  In the other, a property named [__proto__] is lost by
    [normalizeSchema] and a property whose name is empty is passed over by
    [deep-diff]: the diff is empty and the comparison says identical,
    though the values are not equal. *)
Theorem diff_of_normalized_at_failing_inputs :
  (json_equiv (JArray [JString aSoft; JString "a"]) (JArray [JString "a"; JString aSoft])
   /\ diff (normalizeSchema cldrRootKey (JArray [JString aSoft; JString "a"]))
           (normalizeSchema cldrRootKey (JArray [JString "a"; JString aSoft]))
      = Some [DiffEdit [PIndex 1] (JString "a") (JString aSoft);
              DiffEdit [PIndex 0] (JString aSoft) (JString "a")])
  /\ (~ json_equiv productProto product
      /\ diff (normalizeSchema cldrRootKey productProto)
              (normalizeSchema cldrRootKey product) = None
      /\ identical (compareSchemasOfType cldrRootKey "Product" [productProto] [product])
         = true)
  /\ (~ json_equiv product productEmptyKey
      /\ diff (normalizeSchema cldrRootKey product)
              (normalizeSchema cldrRootKey productEmptyKey) = None
      /\ identical (compareSchemasOfType cldrRootKey "Product" [product] [productEmptyKey])
         = true).
Proof.
  split; [ | split ].
  - split; [ | reflexivity ].
    apply equiv_array with [JString "a"; JString aSoft]; [ apply perm_swap | ].
    repeat constructor.
  - split; [ | split; reflexivity ].
    intro H. inversion H as [ | | | | | p p' m Hp Hf ]; subst.
    apply Permutation_length in Hp. apply Forall2_length in Hf.
    simpl in *. congruence.
  - split; [ | split; reflexivity ].
    intro H. inversion H as [ | | | | | p p' m Hp Hf ]; subst.
    apply Permutation_length in Hp. apply Forall2_length in Hf.
    simpl in *. congruence.
Qed.

(** C7 at the input where the code fails it: two pages with one product
    each, as [groupSchemasByType] files them, the product of the first
    page with a property that the other has not.  Each side has one
    instance of the type, the content differs, and [allTypesIdentical] is
    true: the property is named [__proto__] and [normalizeSchema] loses
    it, or its name is empty and [deep-diff] passes over it. *)
Theorem compareSchemas_identical_despite_content :
  (groupSchemasByType (schemas pageProductProto)
   = Some (schemasByType pageProductProto)
   /\ groupSchemasByType (schemas pageProduct) = Some (schemasByType pageProduct)
   /\ ~ json_equiv productProto product
   /\ map (fun c => (type c, count1 c, count2 c))
        (typeComparisons (compareSchemas cldrRootKey pageProductProto pageProduct))
      = [("Product", 1, 1)]
   /\ allTypesIdentical (compareSchemas cldrRootKey pageProductProto pageProduct)
      = true)
  /\ (groupSchemasByType (schemas pageProductEmptyKey)
      = Some (schemasByType pageProductEmptyKey)
      /\ ~ json_equiv product productEmptyKey
      /\ map (fun c => (type c, count1 c, count2 c))
           (typeComparisons
              (compareSchemas cldrRootKey pageProduct pageProductEmptyKey))
         = [("Product", 1, 1)]
      /\ allTypesIdentical
           (compareSchemas cldrRootKey pageProduct pageProductEmptyKey)
         = true).
Proof.
  assert (Hlength : forall p p', List.length p <> List.length p' ->
                      ~ json_equiv (JObject p) (JObject p')).
  { intros p p' Hl H. inversion H as [ | | | | | q q' m Hp Hf ]; subst.
    apply Permutation_length in Hp. apply Forall2_length in Hf. congruence. }
  split.
  - split; [ reflexivity | ]. split; [ reflexivity | ].
    split; [ apply Hlength; discriminate | ]. split; reflexivity.
  - split; [ reflexivity | ].
    split; [ apply Hlength; discriminate | ]. split; reflexivity.
Qed.

(* ================================================================== *)
(** * The scenarios of the specification *)

(** Two instances in reversed order: no difference. *)
Example scenario_reversed_order :
  differences
    (compareSchemasOfType cldrRootKey "Product"
       [JObject [("@type", JString "Product"); ("name", JString "Lamp")];
        JObject [("name", JString "Desk"); ("@type", JString "Product")]]
       [JObject [("@type", JString "Product"); ("name", JString "Desk")];
        JObject [("name", JString "Lamp"); ("@type", JString "Product")]])
  = [].
Proof. reflexivity. Qed.

(** A type present on the first page only: one instance against none, and
    the diff is the removal of that instance. *)
Example scenario_type_removed :
  compareSchemasOfType cldrRootKey "Product" [product] []
  = {| type := "Product"; count1 := 1; count2 := 0;
       differences := [DiffArray [] 0 (DiffDeleted [] product)];
       identical := false |}.
Proof. reflexivity. Qed.

(** Grouping keeps the order in which the types and their instances were
    first seen. *)
Example scenario_grouping :
  groupSchemasByType
    [product; JObject [("@type", JArray [JString "Product"; JString "Book"])];
     JNull; productProto]
  = Some [("Product", [product; productProto]);
          ("Book, Product",
           [JObject [("@type", JArray [JString "Book"; JString "Product"])]]);
          ("unknown", [JNull])].
Proof. reflexivity. Qed.

(** Keys that are array indices are enumerated first, by value, and the
    key [__proto__] is not created. *)
Example scenario_property_order :
  normalizeSchema cldrRootKey
    (JObject [("b", JNull); ("10", JNull); ("9", JBool true);
              ("__proto__", JNull); ("a", JArray [JString "z"; JString "Y"])])
  = JObject [("9", JBool true); ("10", JNull);
             ("a", JArray [JString "Y"; JString "z"]); ("b", JNull)].
Proof. reflexivity. Qed.

(* ================================================================== *)
(** * More on extractJsonLdSchemas *)

Section ExtractionMore.
Variable JSON_parse : string -> option json.

(** X2: the warnings printed are one per block that is not empty and
    that [JSON.parse] rejects, each naming the URL; the schemas collected
    are what the other blocks contribute, an array giving its elements (one
    level only) and any other value itself.  A document without blocks
    gives no schema, no warning and an empty map. *)
Theorem collectBlocks_warnings (blocks : list string) (url : string) :
  snd (collectBlocks JSON_parse blocks url)
  = map (fun _ => parseWarning url)
      (filter (fun b => negb (String.eqb b "")
                        && match JSON_parse b with Some _ => false | None => true end)%bool
         blocks)
  /\ fst (collectBlocks JSON_parse blocks url)
     = flat_map (blockInstances JSON_parse) blocks
  /\ extractJsonLdSchemas JSON_parse [] url
     = (Some {| url := url; schemas := []; schemasByType := [] |}, []).
Proof.
  split; [ | split; [ apply collectBlocks_schemas | reflexivity ] ].
  induction blocks as [ | b blocks IH ]; [ reflexivity | ].
  rewrite collectBlocks_cons. simpl. rewrite IH.
  destruct (String.eqb b ""); simpl; [ reflexivity | ].
  now destruct (JSON_parse b).
Qed.
End ExtractionMore.

(* ================================================================== *)
(** * More on getSchemaType *)

Lemma toStringJS_array (items : list json) :
  toStringJS (JArray items) = join "," items.
Proof.
  reflexivity.
Qed.

Lemma joinPieces_None (items : list json) :
  joinPieces items = None <-> Exists (fun x => toStringJS x = None) items.
Proof.
  induction items as [ | x items IH ]; simpl.
  - split; [ discriminate | intro H; inversion H ].
  - rewrite Exists_cons, <- IH.
    assert (Hx : match x with JNull => Some "" | _ => toStringJS x end = None
                 <-> toStringJS x = None).
    { destruct x; simpl; split; congruence. }
    rewrite <- Hx.
    destruct (match x with JNull => Some "" | _ => toStringJS x end),
      (joinPieces items); split; intro H; try discriminate; auto;
      destruct H; discriminate.
Qed.

Lemma ownsToString_array (items : list json) :
  ownsToString (JArray items) = existsb ownsToString items.
Proof.
  simpl. induction items as [ | x items IH ]; simpl; [ reflexivity | now rewrite IH ].
Qed.

Lemma toStringJS_throws (v : json) :
  toStringJS v = None <-> ownsToString v = true.
Proof.
  induction v as [ | [ | ] | repr | s | items IH | props IH ] using json_nested_ind;
    try (simpl; split; discriminate).
  - rewrite toStringJS_array, ownsToString_array. unfold join.
    rewrite existsb_exists, <- Exists_exists.
    assert (H : joinPieces items = None <-> Exists (fun x => ownsToString x = true) items).
    { rewrite joinPieces_None. rewrite !Exists_exists. rewrite Forall_forall in IH.
      split; intros (x & Hx & H); exists x; (split; [ exact Hx | ]); now apply IH. }
    rewrite <- H. destruct (joinPieces items); simpl; split; congruence.
  - simpl. destruct (obj_has "toString" props); split; congruence.
Qed.

Lemma join_throws (sep : string) (items : list json) :
  join sep items = None <-> existsb ownsToString items = true.
Proof.
  unfold join. rewrite existsb_exists, <- Exists_exists.
  assert (H : joinPieces items = None <-> Exists (fun x => ownsToString x = true) items).
  { rewrite joinPieces_None, !Exists_exists.
    split; intros (x & Hx & H); exists x; (split; [ exact Hx | ]);
      now apply toStringJS_throws. }
  rewrite <- H. destruct (joinPieces items); simpl; split; congruence.
Qed.

Lemma existsb_perm {A : Type} (f : A -> bool) (l l' : list A) :
  Permutation l l' -> existsb f l = existsb f l'.
Proof.
  induction 1; simpl; try congruence.
  - now rewrite !orb_assoc, (orb_comm (f y)).
Qed.

Lemma getSchemaType_None_iff (schema : json) :
  getSchemaType schema = None
  <-> exists types, getProp "@type" schema = Some (JArray types)
                    /\ existsb ownsToString types = true.
Proof.
  rewrite getSchemaType_by_type.
  destruct (getProp "@type" schema) as [ [ | b | repr | s | types | props ] | ];
    try (split; [ discriminate | intros (t & H & _); discriminate ]).
  rewrite join_throws. unfold sortDefault.
  rewrite <- (existsb_perm ownsToString _ _ (js_sort_perm compareDefault types)).
  split.
  - intro H. now exists types.
  - intros (t & [= <-] & H). exact H.
Qed.

(** X3: [getSchemaType] throws exactly when [@type] is an array in which
    some object, directly or inside nested arrays, owns a property named
    [toString]; for every other schema it returns a key. *)
Theorem getSchemaType_throws_iff (schema : json) :
  (getSchemaType schema = None
   <-> exists types, getProp "@type" schema = Some (JArray types)
                     /\ existsb ownsToString types = true)
  /\ ((forall types, getProp "@type" schema = Some (JArray types) ->
                     existsb ownsToString types = false) ->
      exists key, getSchemaType schema = Some key).
Proof.
  split; [ apply getSchemaType_None_iff | ].
  intro H. destruct (getSchemaType schema) as [ key | ] eqn:E; [ now exists key | ].
  apply getSchemaType_None_iff in E. destruct E as (types & Ht & Hown).
  rewrite (H types Ht) in Hown. discriminate.
Qed.

Lemma insert_sorted_ext_in {A : Type} (cmp cmp' : A -> A -> comparison)
  (x : A) (l : list A) :
  (forall b, In b l -> cmp x b = cmp' x b) ->
  insert_sorted cmp x l = insert_sorted cmp' x l.
Proof.
  induction l as [ | y l IH ]; intro H; simpl; [ reflexivity | ].
  rewrite <- (H y) by now left.
  destruct (cmp x y); try reflexivity.
  f_equal. apply IH. intros b Hb. apply H. now right.
Qed.

Lemma js_sort_ext_in {A : Type} (cmp cmp' : A -> A -> comparison) (l : list A) :
  (forall a b, In a l -> In b l -> cmp a b = cmp' a b) ->
  js_sort cmp l = js_sort cmp' l.
Proof.
  induction l as [ | x l IH ]; intro H; simpl; [ reflexivity | ].
  rewrite IH by (intros a b Ha Hb; apply H; now right).
  apply insert_sorted_ext_in. intros b Hb. apply js_sort_In in Hb.
  apply H; [ now left | now right ].
Qed.

Lemma compareDefault_compareByString (a b : json) :
  ownsToString a = false -> ownsToString b = false ->
  compareDefault a b = compareByString a b.
Proof.
  intros Ha Hb. unfold compareDefault, compareByString, toStringOr.
  destruct (toStringJS a) eqn:Ea;
    [ | apply toStringJS_throws in Ea; congruence ].
  destruct (toStringJS b) eqn:Eb;
    [ reflexivity | apply toStringJS_throws in Eb; congruence ].
Qed.

Lemma existsb_false_In {A : Type} (f : A -> bool) (l : list A) (x : A) :
  existsb f l = false -> In x l -> f x = false.
Proof.
  intros H Hx. destruct (f x) eqn:E; [ | reflexivity ].
  assert (existsb f l = true) by (apply existsb_exists; eauto). congruence.
Qed.

(** Sorting a sorted [@type] array again changes nothing. *)
Lemma sortDefault_idempotent (types : list json) :
  existsb ownsToString types = false ->
  sortDefault (sortDefault types) = sortDefault types.
Proof.
  intro H. unfold sortDefault.
  assert (E : js_sort compareDefault types = js_sort compareByString types).
  { apply js_sort_ext_in. intros a b Ha Hb.
    apply compareDefault_compareByString; eapply existsb_false_In; eauto. }
  rewrite E.
  rewrite (js_sort_ext_in compareDefault compareByString).
  - apply js_sort_idempotent.
    + intros a b. apply String.compare_antisym.
    + intros a b c. apply string_compare_trans.
  - intros a b Ha Hb. apply js_sort_In in Ha, Hb.
    apply compareDefault_compareByString; eapply existsb_false_In; eauto.
Qed.

Lemma obj_replace_idempotent {A : Type} (k : string) (v : A) (o : list (string * A)) :
  obj_replace k v (obj_replace k v o) = obj_replace k v o.
Proof.
  induction o as [ | [k0 v0] o IH ]; simpl; [ reflexivity | ].
  destruct (String.eqb k k0) eqn:Ek; simpl; rewrite Ek; [ reflexivity | ].
  now rewrite IH.
Qed.

Lemma getSchemaType_leaves_facts (schema : json) :
  getSchemaType (getSchemaType_leaves schema) = getSchemaType schema
  /\ (getSchemaType schema <> None ->
      getSchemaType_leaves (getSchemaType_leaves schema)
      = getSchemaType_leaves schema).
Proof.
  destruct schema as [ | b | repr | s | items | props ];
    try (split; reflexivity).
  unfold getSchemaType_leaves at 1 3 4.
  destruct (obj_get "@type" props) as [ [ | b | repr | s | types | tprops ] | ] eqn:E;
    try (split; [ reflexivity | intros _; simpl; now rewrite E ]).
  assert (Hget : obj_get "@type" (obj_replace "@type" (JArray (sortDefault types)) props)
                 = Some (JArray (sortDefault types)))
    by (apply obj_get_replace; congruence).
  split.
  - rewrite !getSchemaType_by_type. simpl. rewrite Hget, E.
    destruct (existsb ownsToString types) eqn:Ex.
    + assert (H1 : join ", " (sortDefault types) = None).
      { apply join_throws. unfold sortDefault.
        now rewrite <- (existsb_perm _ _ _ (js_sort_perm compareDefault types)). }
      assert (H2 : join ", " (sortDefault (sortDefault types)) = None).
      { apply join_throws. unfold sortDefault.
        now rewrite <- !(existsb_perm _ _ _ (js_sort_perm compareDefault _)). }
      congruence.
    + now rewrite sortDefault_idempotent.
  - intro Hkey. simpl. rewrite Hget.
    assert (Ex : existsb ownsToString types = false).
    { destruct (existsb ownsToString types) eqn:Ex; [ exfalso | reflexivity ].
      apply Hkey, getSchemaType_None_iff. exists types. split; [ exact E | exact Ex ]. }
    rewrite sortDefault_idempotent by exact Ex. f_equal.
    apply obj_replace_idempotent.
Qed.

(** X4: the in-place sort does not change the key: on the schema as a
    call left it, [getSchemaType] returns what the call returned, and a
    second call that returns leaves the schema as the first one did. *)
Theorem getSchemaType_after_call (schema : json) :
  getSchemaType (getSchemaType_leaves schema) = getSchemaType schema
  /\ (getSchemaType schema <> None ->
      getSchemaType_leaves (getSchemaType_leaves schema)
      = getSchemaType_leaves schema).
Proof.
  destruct (getSchemaType_leaves_facts schema) as [ Hkey Hleaves ].
  split; [ exact Hkey | exact Hleaves ].
Qed.

(** The theorem at a product whose types came as Product, Book. *)
Lemma getSchemaType_after_call_witness :
  getSchemaType
    (getSchemaType_leaves
       (JObject [("@type", JArray [JString "Product"; JString "Book"])]))
  = Some "Book, Product"
  /\ getSchemaType_leaves
       (getSchemaType_leaves
          (JObject [("@type", JArray [JString "Product"; JString "Book"])]))
     = JObject [("@type", JArray [JString "Book"; JString "Product"])].
Proof.
  destruct (getSchemaType_after_call
              (JObject [("@type", JArray [JString "Product"; JString "Book"])]))
    as [ H1 H2 ].
  split; [ exact H1 | ]. apply H2. discriminate.
Defined.

(* ================================================================== *)
(** * groupSchemasByType *)

Lemma bucketOf_map_push (t t' : string) (x : json) (m : TypeMap) :
  bucketOf (map_push t x m) t'
  = if String.eqb t' t then (bucketOf m t' ++ [x])%list else bucketOf m t'.
Proof.
  unfold bucketOf. induction m as [ | [k b] m IH ]; simpl.
  - now destruct (String.eqb t' t).
  - destruct (String.eqb_spec t k) as [ <- | Hne ]; simpl.
    + now destruct (String.eqb t' t).
    + destruct (String.eqb_spec t' k) as [ -> | ]; [ | exact IH ].
      destruct (String.eqb_spec k t); [ congruence | reflexivity ].
Qed.

Lemma map_push_keys (t : string) (x : json) (m : TypeMap) :
  map fst (map_push t x m)
  = if existsb (String.eqb t) (map fst m) then map fst m
    else (map fst m ++ [t])%list.
Proof.
  induction m as [ | [k b] m IH ]; simpl; [ reflexivity | ].
  destruct (String.eqb t k); simpl; [ reflexivity | ].
  rewrite IH. now destruct (existsb (String.eqb t) (map fst m)).
Qed.

Lemma map_push_sizes (t : string) (x : json) (m : TypeMap) :
  list_sum (map (fun e => List.length (snd e)) (map_push t x m))
  = S (list_sum (map (fun e => List.length (snd e)) m)).
Proof.
  induction m as [ | [k b] m IH ]; simpl; [ reflexivity | ].
  destruct (String.eqb t k); simpl.
  - rewrite length_app. simpl. lia.
  - rewrite IH. lia.
Qed.

Lemma map_push_nonempty (t : string) (x : json) (m : TypeMap) :
  Forall (fun e => snd e <> []) m -> Forall (fun e => snd e <> []) (map_push t x m).
Proof.
  induction 1 as [ | [k b] m Hb Hm IH ]; simpl.
  - constructor; [ discriminate | constructor ].
  - destruct (String.eqb t k); constructor; auto.
    simpl. destruct b; discriminate.
Qed.

Lemma setOf_step_NoDup (keys seen : list string) :
  NoDup seen ->
  NoDup (fold_left
           (fun seen k =>
              if existsb (String.eqb k) seen then seen else (seen ++ [k])%list)
           keys seen).
Proof.
  revert seen. induction keys as [ | k keys IH ]; intros seen Hnd; simpl;
    [ exact Hnd | ].
  apply IH. destruct (existsb (String.eqb k) seen) eqn:E; [ exact Hnd | ].
  apply NoDup_app; [ exact Hnd | repeat constructor; simpl; tauto | ].
  intros x Hx [ Hk | [] ]. subst x.
  assert (existsb (String.eqb k) seen = true) by now apply existsb_eqb_In.
  congruence.
Qed.

Lemma setOf_NoDup (keys : list string) : NoDup (setOf keys).
Proof. apply setOf_step_NoDup. constructor. Qed.

(** The loop, started from any map. *)
Lemma groupSchemasByType_from_spec (schemas : list json) (m m' : TypeMap) :
  groupSchemasByType_from m schemas = Some m' ->
  (forall t, bucketOf m' t
             = (bucketOf m t
                ++ map getSchemaType_leaves (filter (hasTypeKey t) schemas))%list)
  /\ map fst m'
     = fold_left
         (fun seen k =>
            if existsb (String.eqb k) seen then seen else (seen ++ [k])%list)
         (map (fun s => match getSchemaType s with Some t => t | None => "" end)
            schemas)
         (map fst m)
  /\ list_sum (map (fun e => List.length (snd e)) m')
     = list_sum (map (fun e => List.length (snd e)) m) + List.length schemas
  /\ (Forall (fun e => snd e <> []) m -> Forall (fun e => snd e <> []) m').
Proof.
  revert m. induction schemas as [ | s schemas IH ]; intros m H; simpl in H.
  - injection H as <-. simpl. repeat split; auto.
    intro t. now rewrite app_nil_r.
  - destruct (getSchemaType s) as [ k | ] eqn:Ek; [ | discriminate ].
    destruct (IH _ H) as (Hb & Hk & Hs & Hn). repeat split.
    + intro t. rewrite Hb, bucketOf_map_push. simpl. unfold hasTypeKey at 2.
      rewrite Ek. rewrite (String.eqb_sym t k).
      destruct (String.eqb k t); simpl; [ now rewrite <- app_assoc | reflexivity ].
    + rewrite Hk, map_push_keys. simpl. now rewrite Ek.
    + rewrite Hs, map_push_sizes. simpl. lia.
    + intro Hm. apply Hn, map_push_nonempty, Hm.
Qed.

(** X5: when grouping returns, the bucket of a key holds exactly the
    schemas with that key, in the order they were seen; the keys are
    distinct and stand in order of first appearance; no bucket is empty;
    every schema is in one bucket (the sizes add up to the number of
    schemas); and every schema in the bucket of [t] has the key [t]. *)
Theorem groupSchemasByType_buckets (schemas : list json) (m : TypeMap) :
  groupSchemasByType schemas = Some m ->
  (forall t, bucketOf m t
             = map getSchemaType_leaves (filter (hasTypeKey t) schemas))
  /\ map fst m
     = setOf (map (fun s => match getSchemaType s with Some t => t | None => "" end)
                schemas)
  /\ NoDup (map fst m)
  /\ list_sum (map (fun e => List.length (snd e)) m) = List.length schemas
  /\ (forall t bucket, In (t, bucket) m ->
        bucket <> []
        /\ bucket = map getSchemaType_leaves (filter (hasTypeKey t) schemas)
        /\ Forall (fun x => getSchemaType x = Some t) bucket).
Proof.
  intro H. destruct (groupSchemasByType_from_spec _ _ _ H) as (Hb & Hk & Hs & Hn).
  assert (Hnd : NoDup (map fst m)).
  { rewrite Hk. apply setOf_step_NoDup. constructor. }
  split; [ exact Hb | ]. split; [ exact Hk | ]. split; [ exact Hnd | ].
  split; [ exact Hs | ].
  intros t bucket Hin.
  assert (Hbucket : bucketOf m t = bucket).
  { unfold bucketOf. now rewrite (In_pair_obj_get_NoDup _ _ _ Hnd Hin). }
  split; [ | split ].
  - specialize (Hn (Forall_nil _)). rewrite Forall_forall in Hn.
    apply (Hn (t, bucket) Hin).
  - now rewrite <- Hbucket, Hb.
  - rewrite <- Hbucket, Hb. apply Forall_forall. intros x Hx.
    apply in_map_iff in Hx. destruct Hx as (s & <- & Hs').
    apply filter_In in Hs'. destruct Hs' as [ _ Hs' ].
    destruct (getSchemaType_leaves_facts s) as [ -> _ ].
    unfold hasTypeKey in Hs'. destruct (getSchemaType s); [ | discriminate ].
    apply String.eqb_eq in Hs'. now subst.
Qed.

(** The theorem at four schemas of three types. *)
Lemma groupSchemasByType_buckets_witness :
  bucketOf [("Product", [product; productProto]); ("unknown", [JNull])] "Product"
  = [product; productProto]
  /\ NoDup ["Product"; "unknown"].
Proof.
  destruct (groupSchemasByType_buckets [product; JNull; productProto]
              [("Product", [product; productProto]); ("unknown", [JNull])]
              eq_refl) as (H1 & _ & H3 & _).
  split; [ exact (H1 "Product") | exact H3 ].
Defined.

(** X6: grouping throws exactly when [getSchemaType] throws on one of the
    schemas. *)
Theorem groupSchemasByType_throws_iff (schemas : list json) :
  groupSchemasByType schemas = None
  <-> Exists (fun s => getSchemaType s = None) schemas.
Proof.
  unfold groupSchemasByType. generalize (@nil (string * list json)).
  induction schemas as [ | s schemas IH ]; intro m; simpl.
  - split; [ discriminate | intro H; inversion H ].
  - rewrite Exists_cons. destruct (getSchemaType s) as [ k | ].
    + rewrite IH. split; [ tauto | intros [ H | H ]; [ discriminate | exact H ] ].
    + split; auto.
Qed.

(* ================================================================== *)
(** * extractJsonLdSchemas: the record returned *)


Section ExtractionRecord.
Variable JSON_parse : string -> option json.

End ExtractionRecord.


(* ================================================================== *)
(** * More on normalizeSchema *)

Section NormalizeMore.
Variable collationKey : string -> list N.

Lemma normalizeSchema_object_get (props : list (string * json)) (k : string) :
  getProp k (normalizeSchema collationKey (JObject props))
  = if String.eqb k "__proto__" then None
    else option_map (normalizeSchema collationKey) (obj_get k props).
Proof.
  simpl. rewrite obj_get_assignKeys. unfold assigned.
  rewrite obj_get_map_values. simpl.
  destruct (String.eqb k "__proto__"); simpl.
  - now rewrite andb_false_r.
  - rewrite andb_true_r.
    destruct (existsb (String.eqb k) (sort_strings (map fst props))) eqn:E;
      [ now destruct (obj_get k props) | ].
    destruct (obj_get k props) eqn:Eg; [ exfalso | reflexivity ].
    apply obj_get_In in Eg.
    assert (existsb (String.eqb k) (sort_strings (map fst props)) = true).
    { apply existsb_eqb_In. unfold sort_strings. now apply js_sort_In. }
    congruence.
Qed.

(** X7: reading a property of a normalized object gives the normalized
    value of that property of the input; the one exception is
    [__proto__], which the normalized object never owns.  The number of
    elements of an array is kept, and a value that is neither array nor
    object is returned as it is. *)
Theorem normalizeSchema_lookup :
  (forall props k,
      getProp k (normalizeSchema collationKey (JObject props))
      = if String.eqb k "__proto__" then None
        else option_map (normalizeSchema collationKey) (getProp k (JObject props)))
  /\ (forall items sorted,
        normalizeSchema collationKey (JArray items) = JArray sorted ->
        List.length sorted = List.length items)
  /\ (forall v, realTypeOf v <> TArray -> realTypeOf v <> TObject ->
                normalizeSchema collationKey v = v).
Proof.
  split; [ | split ].
  - intros props k. apply normalizeSchema_object_get.
  - intros items sorted H. simpl in H. injection H as <-.
    rewrite <- (Permutation_length (js_sort_perm _ _)). apply length_map.
  - intros [ | b | repr | s | items | props ] Ha Ho; simpl in *; congruence.
Qed.

Lemma noProtoKey_array (items : list json) :
  noProtoKey (JArray items) <-> Forall noProtoKey items.
Proof.
  simpl. induction items as [ | x items IH ].
  - split; constructor.
  - rewrite IH. split.
    + intros [ Hx Hl ]. now constructor.
    + intro H. inversion H; subst. tauto.
Qed.

Lemma noProtoKey_object (props : list (string * json)) :
  noProtoKey (JObject props)
  <-> ~ In "__proto__" (map fst props)
      /\ Forall (fun kv => noProtoKey (snd kv)) props.
Proof.
  simpl. apply and_iff_compat_l. induction props as [ | kv props IH ].
  - split; constructor.
  - rewrite IH. split.
    + intros [ Hx Hl ]. now constructor.
    + intro H. inversion H; subst. tauto.
Qed.

Lemma Forall2_map_self {A B : Type} (R : A -> B -> Prop) (f : A -> B) (l : list A) :
  (forall x, In x l -> R x (f x)) -> Forall2 R l (map f l).
Proof.
  induction l as [ | x l IH ]; intro H; simpl; constructor.
  - apply H. now left.
  - apply IH. intros y Hy. apply H. now right.
Qed.

Lemma Forall2_map_left {A B : Type} (R : B -> A -> Prop) (f : A -> B) (l : list A) :
  (forall x, In x l -> R (f x) x) -> Forall2 R (map f l) l.
Proof.
  induction l as [ | x l IH ]; intro H; simpl; constructor.
  - apply H. now left.
  - apply IH. intros y Hy. apply H. now right.
Qed.

(** X8: normalization only reorders: when the keys of every object are
    distinct and none is [__proto__], the normalized value is equal to the
    input up to the order of keys and of array elements. *)
Theorem normalizeSchema_equiv (v : json) :
  distinctKeys v -> noProtoKey v ->
  json_equiv v (normalizeSchema collationKey v).
Proof.
  induction v as [ | b | repr | s | items IH | props IH ] using json_nested_ind;
    intros Hd Hp; try constructor.
  - apply distinctKeys_array in Hd. apply noProtoKey_array in Hp.
    rewrite Forall_forall in IH, Hd, Hp. simpl.
    destruct (Permutation_map_inv (normalizeSchema collationKey) items
                (Permutation_sym (js_sort_perm (compareSerialized collationKey)
                                    (map (normalizeSchema collationKey) items))))
      as (m & Hm & Hperm).
    rewrite Hm. apply equiv_array with m; [ exact Hperm | ].
    apply Forall2_map_self. intros x Hx.
    assert (Hin : In x items)
      by (eapply Permutation_in; [ apply Permutation_sym, Hperm | exact Hx ]).
    auto.
  - apply distinctKeys_object in Hd. destruct Hd as [ Hnd Hd ].
    apply noProtoKey_object in Hp. destruct Hp as [ Hproto Hp ].
    rewrite Forall_forall in IH, Hd, Hp.
    destruct (normalizeSchema_object collationKey props) as (o & Ho & Hs & _ & _).
    assert (Hget : forall k, obj_get k o
                     = if String.eqb k "__proto__" then None
                       else option_map (normalizeSchema collationKey) (obj_get k props)).
    { intro k. rewrite <- normalizeSchema_object_get, Ho. reflexivity. }
    rewrite Ho.
    set (pick := fun kw : string * json =>
                   (fst kw, match obj_get (fst kw) props with
                            | Some x => x
                            | None => JNull
                            end)).
    apply equiv_object with (map pick o).
    + apply NoDup_Permutation.
      * eapply NoDup_map_inv, Hnd.
      * apply (NoDup_map_inv fst). rewrite map_map. simpl.
        now apply propBefore_sorted_NoDup.
      * intros [k x]. split.
        -- intro Hin. pose proof (In_pair_obj_get_NoDup _ _ _ Hnd Hin) as Hk.
           assert (Hne : String.eqb k "__proto__" = false).
           { apply String.eqb_neq. intros ->. apply Hproto.
             apply in_map_iff. now exists ("__proto__", x). }
           pose proof (Hget k) as Hko. rewrite Hne, Hk in Hko. simpl in Hko.
           apply obj_get_In_pair in Hko. apply in_map_iff.
           exists (k, normalizeSchema collationKey x). split; [ | exact Hko ].
           unfold pick. simpl. now rewrite Hk.
        -- intro Hin. apply in_map_iff in Hin. destruct Hin as ([k' w] & E & Hin).
           unfold pick in E. simpl in E. injection E as -> <-.
           pose proof (In_pair_obj_get _ _ _ Hs Hin) as Hko.
           rewrite Hget in Hko. destruct (String.eqb k "__proto__"); [ discriminate | ].
           destruct (obj_get k props) as [ x | ] eqn:Ek; [ | discriminate ].
           now apply obj_get_In_pair.
    + apply Forall2_map_left. intros [k w] Hin. unfold pick. simpl.
      split; [ reflexivity | ].
      pose proof (In_pair_obj_get _ _ _ Hs Hin) as Hko.
      rewrite Hget in Hko. destruct (String.eqb k "__proto__"); [ discriminate | ].
      destruct (obj_get k props) as [ x | ] eqn:Ek; [ | discriminate ].
      simpl in Hko. injection Hko as <-.
      apply obj_get_In_pair in Ek.
      apply (IH (k, x) Ek); [ apply (Hd (k, x) Ek) | apply (Hp (k, x) Ek) ].
Qed.
End NormalizeMore.

(** The theorem at a product with a name and a list of offers. *)
Lemma normalizeSchema_equiv_witness :
  json_equiv
    (JObject [("name", JString "Lamp"); ("@type", JString "Product");
              ("offers", JArray [JNumber "9"; JNumber "10"])])
    (JObject [("@type", JString "Product"); ("name", JString "Lamp");
              ("offers", JArray [JNumber "10"; JNumber "9"])]).
Proof.
  apply (normalizeSchema_equiv cldrRootKey
           (JObject [("name", JString "Lamp"); ("@type", JString "Product");
                     ("offers", JArray [JNumber "9"; JNumber "10"])])).
  - simpl. split; [ | tauto ].
    repeat constructor; simpl; intuition discriminate.
  - simpl. split; [ | tauto ]. intuition discriminate.
Defined.

(* ================================================================== *)
(** * More on compareSchemasOfType *)

Lemma extraItems_length (mk : json -> change) (path : list pathKey) (n : nat)
  (items : list json) :
  List.length (extraItems mk path n items) = List.length items - n.
Proof.
  unfold extraItems.
  rewrite length_rev, length_map, length_combine, length_seq, length_skipn.
  apply Nat.min_id.
Qed.

(** The array branch of [deepDiff], written out. *)
Lemma deepDiff_arrays (l r : list json) (path : list pathKey) :
  deepDiff (JArray l) (JArray r) path
  = (extraItems (DiffNew []) path (List.length l) r
     ++ extraItems (DiffDeleted []) path (List.length r) l
     ++ List.concat (rev
          ((fix common (l r : list json) (i : nat) : list (list change) :=
              match l, r with
              | x :: l', y :: r' =>
                  deepDiff x y (path ++ [PIndex i]) :: common l' r' (S i)
              | _, _ => []
              end) l r 0)))%list.
Proof. reflexivity. Qed.

Lemma extraItems_of_none (mk : json -> change) (path : list pathKey) (n : nat) :
  extraItems mk path n [] = [].
Proof. unfold extraItems. now rewrite skipn_nil, combine_nil. Qed.

Lemma deepDiff_arrays_lengths (l r : list json) (path : list pathKey) :
  deepDiff (JArray l) (JArray r) path = [] -> List.length l = List.length r.
Proof.
  rewrite deepDiff_arrays.
  intro H. apply app_eq_nil in H. destruct H as [ H1 H ].
  apply app_eq_nil in H. destruct H as [ H2 _ ].
  apply (f_equal (@List.length change)) in H1, H2.
  rewrite extraItems_length in H1, H2. simpl in *. lia.
Qed.

Lemma deepDiff_array_against_none (l : list json) (path : list pathKey) :
  deepDiff (JArray l) (JArray []) path = extraItems (DiffDeleted []) path 0 l.
Proof.
  rewrite deepDiff_arrays, extraItems_of_none.
  destruct l; simpl; [ reflexivity | apply app_nil_r ].
Qed.

Lemma deepDiff_none_against_array (r : list json) (path : list pathKey) :
  deepDiff (JArray []) (JArray r) path = extraItems (DiffNew []) path 0 r.
Proof.
  rewrite deepDiff_arrays, extraItems_of_none. simpl. now rewrite app_nil_r.
Qed.

Section CompareMore.
Variable collationKey : string -> list N.

Let normalized (schemas : list json) : list json :=
  js_sort (compareSerialized collationKey)
    (map (normalizeSchema collationKey) schemas).

Lemma normalized_length (schemas : list json) :
  List.length (normalized schemas) = List.length schemas.
Proof.
  unfold normalized.
  rewrite <- (Permutation_length (js_sort_perm _ _)). apply length_map.
Qed.

Lemma differences_deepDiff (t : string) (schemas1 schemas2 : list json) :
  differences (compareSchemasOfType collationKey t schemas1 schemas2)
  = deepDiff (JArray (normalized schemas1)) (JArray (normalized schemas2)) [].
Proof.
  unfold compareSchemasOfType, diff. cbn [differences]. fold (normalized schemas1).
  fold (normalized schemas2).
  now destruct (deepDiff (JArray (normalized schemas1)) (JArray (normalized schemas2)) []).
Qed.

Lemma identical_deepDiff (t : string) (schemas1 schemas2 : list json) :
  identical (compareSchemasOfType collationKey t schemas1 schemas2)
  = Nat.eqb
      (List.length
         (deepDiff (JArray (normalized schemas1)) (JArray (normalized schemas2)) []))
      0.
Proof.
  unfold compareSchemasOfType, diff. cbn [identical]. fold (normalized schemas1).
  fold (normalized schemas2).
  now destruct (deepDiff (JArray (normalized schemas1)) (JArray (normalized schemas2)) []).
Qed.

(** X9: a type present on one page only.  Against no instance, the
    differences are one array change per instance of the page that has the
    type, from the last index down, each the removal (or, the other way
    round, the addition) of the normalized instance at that index; their
    number is the number of instances, and the comparison is identical
    only when there is no instance at all. *)
Theorem compareSchemasOfType_one_side (t : string) (schemas : list json) :
  differences (compareSchemasOfType collationKey t schemas [])
  = rev (map (fun ix => DiffArray [] (fst ix) (DiffDeleted [] (snd ix)))
           (combine (seq 0 (List.length schemas))
              (js_sort (compareSerialized collationKey)
                 (map (normalizeSchema collationKey) schemas))))
  /\ differences (compareSchemasOfType collationKey t [] schemas)
     = rev (map (fun ix => DiffArray [] (fst ix) (DiffNew [] (snd ix)))
              (combine (seq 0 (List.length schemas))
                 (js_sort (compareSerialized collationKey)
                    (map (normalizeSchema collationKey) schemas))))
  /\ List.length (differences (compareSchemasOfType collationKey t schemas []))
     = List.length schemas
  /\ List.length (differences (compareSchemasOfType collationKey t [] schemas))
     = List.length schemas
  /\ count2 (compareSchemasOfType collationKey t schemas []) = 0
  /\ count1 (compareSchemasOfType collationKey t [] schemas) = 0
  /\ identical (compareSchemasOfType collationKey t schemas [])
     = Nat.eqb (List.length schemas) 0
  /\ identical (compareSchemasOfType collationKey t [] schemas)
     = Nat.eqb (List.length schemas) 0.
Proof.
  assert (Hshape : forall mk, extraItems mk [] 0 (normalized schemas)
             = rev (map (fun ix => DiffArray [] (fst ix) (mk (snd ix)))
                      (combine (seq 0 (List.length schemas)) (normalized schemas)))).
  { intro mk. unfold extraItems. now rewrite Nat.sub_0_r, normalized_length. }
  assert (Hlen : forall mk, List.length (extraItems mk [] 0 (normalized schemas))
                            = List.length schemas).
  { intro mk. rewrite extraItems_length, normalized_length. lia. }
  rewrite !differences_deepDiff, !identical_deepDiff.
  change (normalized []) with (@nil json).
  rewrite deepDiff_array_against_none, deepDiff_none_against_array, !Hlen.
  rewrite !Hshape. repeat split; reflexivity.
Qed.
End CompareMore.

Section CompareCounts.
Variable collationKey : string -> list N.

(** X10: a comparison that is identical has as many instances on both
    sides: a type whose counts differ is never reported identical. *)
Theorem compareSchemasOfType_identical_counts (t : string)
  (schemas1 schemas2 : list json) :
  identical (compareSchemasOfType collationKey t schemas1 schemas2) = true ->
  count1 (compareSchemasOfType collationKey t schemas1 schemas2)
  = count2 (compareSchemasOfType collationKey t schemas1 schemas2)
  /\ List.length schemas1 = List.length schemas2.
Proof.
  rewrite identical_deepDiff. intro H. apply Nat.eqb_eq in H.
  apply length_zero_iff_nil, deepDiff_arrays_lengths in H.
  rewrite <- !(Permutation_length (js_sort_perm _ _)), !length_map in H.
  split; [ exact H | exact H ].
Qed.

(** X11: the order of the instances of a type on a page does not matter
    as long as no two different normalized instances compare equal: a list
    of schemas, none with a property named [__proto__], against a
    permutation of it has no difference. *)
Theorem compareSchemasOfType_permutation (t : string)
  (schemas1 schemas2 : list json) :
  Forall noProtoKey schemas1 ->
  (forall a b,
      In a (map (normalizeSchema collationKey) schemas1) ->
      In b (map (normalizeSchema collationKey) schemas1) ->
      compareSerialized collationKey a b = Eq -> a = b) ->
  Permutation schemas1 schemas2 ->
  differences (compareSchemasOfType collationKey t schemas1 schemas2) = []
  /\ identical (compareSchemasOfType collationKey t schemas1 schemas2) = true.
Proof.
  intros _ Hties Hp.
  pose proof (normalizeSchema_array_permutation collationKey _ _ Hties Hp) as H.
  simpl in H. injection H as H.
  rewrite identical_deepDiff, differences_deepDiff. rewrite <- H.
  assert (Hsame : deepDiff
                    (JArray (js_sort (compareSerialized collationKey)
                               (map (normalizeSchema collationKey) schemas1)))
                    (JArray (js_sort (compareSerialized collationKey)
                               (map (normalizeSchema collationKey) schemas1))) []
                  = []).
  { apply (deepDiff_same (normalizeSchema collationKey (JArray schemas1))).
    apply normalizeSchema_distinctKeys. }
  rewrite Hsame. split; reflexivity.
Qed.
End CompareCounts.

(** The theorem at one product against itself. *)
Lemma compareSchemasOfType_identical_counts_witness :
  count1 (compareSchemasOfType cldrRootKey "Product" [product] [product])
  = count2 (compareSchemasOfType cldrRootKey "Product" [product] [product])
  /\ List.length [product] = List.length [product].
Proof.
  apply (compareSchemasOfType_identical_counts cldrRootKey "Product"
           [product] [product]).
  reflexivity.
Defined.

(** The theorem at two products in the two possible orders. *)
Lemma compareSchemasOfType_permutation_witness :
  differences
    (compareSchemasOfType cldrRootKey "Product"
       [JObject [("@type", JString "Product"); ("name", JString "Lamp")];
        JObject [("@type", JString "Product"); ("name", JString "Desk")]]
       [JObject [("@type", JString "Product"); ("name", JString "Desk")];
        JObject [("@type", JString "Product"); ("name", JString "Lamp")]])
  = []
  /\ identical
       (compareSchemasOfType cldrRootKey "Product"
          [JObject [("@type", JString "Product"); ("name", JString "Lamp")];
           JObject [("@type", JString "Product"); ("name", JString "Desk")]]
          [JObject [("@type", JString "Product"); ("name", JString "Desk")];
           JObject [("@type", JString "Product"); ("name", JString "Lamp")]])
     = true.
Proof.
  apply (compareSchemasOfType_permutation cldrRootKey "Product").
  - repeat constructor; simpl; intuition discriminate.
  - intros a b [ <- | [ <- | [] ] ] [ <- | [ <- | [] ] ] H;
      try reflexivity; vm_compute in H; discriminate.
  - apply perm_swap.
Defined.

(* ================================================================== *)
(** * More on compareSchemas *)



Section CompareSchemasMore.
Variable collationKey : string -> list N.

(** X12: the report holds one comparison per type key, each key once, in
    the order the keys are first met (the first page, then the second); a
    comparison carries the sizes of the two buckets of its key, zero for a
    page without the key; and the totals are the numbers of schemas of the
    two pages. *)
Theorem compareSchemas_comparisons (schemas1 schemas2 : JsonLdSchema) :
  map type (typeComparisons (compareSchemas collationKey schemas1 schemas2))
  = setOf (map fst (schemasByType schemas1) ++ map fst (schemasByType schemas2))
  /\ NoDup (map type (typeComparisons (compareSchemas collationKey schemas1 schemas2)))
  /\ (forall c,
        In c (typeComparisons (compareSchemas collationKey schemas1 schemas2)) ->
        count1 c = List.length (bucketOf (schemasByType schemas1) (type c))
        /\ count2 c = List.length (bucketOf (schemasByType schemas2) (type c))
        /\ (~ In (type c) (map fst (schemasByType schemas1)) -> count1 c = 0)
        /\ (~ In (type c) (map fst (schemasByType schemas2)) -> count2 c = 0))
  /\ totalSchemas1 (compareSchemas collationKey schemas1 schemas2)
     = List.length (schemas schemas1)
  /\ totalSchemas2 (compareSchemas collationKey schemas1 schemas2)
     = List.length (schemas schemas2).
Proof.
  assert (Htypes : map type (typeComparisons
                               (compareSchemas collationKey schemas1 schemas2))
                   = allTypes schemas1 schemas2).
  { rewrite typeComparisons_map, map_map. simpl. apply map_id. }
  split; [ exact Htypes | ]. split; [ rewrite Htypes; apply setOf_NoDup | ].
  split; [ | split; reflexivity ].
  intros c Hc. rewrite typeComparisons_map in Hc. apply in_map_iff in Hc.
  destruct Hc as (t & <- & _). simpl. repeat split.
  - intro H. unfold bucketOf. now rewrite (obj_get_None _ _ H).
  - intro H. unfold bucketOf. now rewrite (obj_get_None _ _ H).
Qed.

End CompareSchemasMore.


(* ================================================================== *)
(** * More on transformHtml *)

Lemma elementsOf_child (name : string) (attribs : list (string * string))
  (children : list node) (c e : node) :
  In c children -> In e (elementsOf c) ->
  In e (elementsOf (Element name attribs children)).
Proof. intros Hc He. simpl. right. apply in_flat_map. eauto. Qed.

Lemma elementsOf_isElement (n e : node) : In e (elementsOf n) -> isElement e = true.
Proof.
  revert e. induction n as [ name attribs children IH | | | ] using node_nested_ind;
    intros e He; simpl in He; try contradiction.
  destruct He as [ <- | He ]; [ reflexivity | ].
  apply in_flat_map in He. destruct He as (c & Hc & He).
  rewrite Forall_forall in IH. eauto.
Qed.

Lemma elementsOf_mapAttribs (f : list (string * string) -> list (string * string))
  (n e : node) :
  In e (elementsOf (mapAttribs f n)) ->
  exists e0, In e0 (elementsOf n) /\ nameOf e = nameOf e0
             /\ attributes e = f (attributes e0).
Proof.
  revert e. induction n as [ name attribs children IH | | | ] using node_nested_ind;
    intros e He; simpl in He; try contradiction.
  destruct He as [ <- | He ].
  - exists (Element name attribs children). simpl. auto.
  - apply in_flat_map in He. destruct He as (c' & Hc' & He).
    apply in_map_iff in Hc'. destruct Hc' as (c & <- & Hc).
    rewrite Forall_forall in IH. destruct (IH c Hc e He) as (e0 & H0 & Hrest).
    exists e0. split; [ eapply elementsOf_child; eauto | exact Hrest ].
Qed.

(** The children [removeElements] keeps. *)
Lemma removeElements_children (p : node -> bool) (name : string)
  (attribs : list (string * string)) (children : list node) :
  removeElements p (Element name attribs children)
  = Element name attribs
      (map (removeElements p) (filter (fun c => negb (p c)) children)).
Proof.
  simpl. f_equal.
  induction children as [ | c children IH ]; simpl; [ reflexivity | ].
  destruct (p c); simpl; now rewrite IH.
Qed.

Lemma elementsOf_removeElements (p : node -> bool) (n e : node) :
  In e (elementsOf (removeElements p n)) ->
  exists e0, In e0 (elementsOf n) /\ nameOf e = nameOf e0
             /\ attributes e = attributes e0 /\ (e0 = n \/ p e0 = false).
Proof.
  revert e. induction n as [ name attribs children IH | | | ] using node_nested_ind;
    intros e He; try (simpl in He; contradiction).
  rewrite removeElements_children in He. simpl in He.
  destruct He as [ <- | He ].
  - exists (Element name attribs children). simpl. auto.
  - apply in_flat_map in He. destruct He as (c' & Hc' & He).
    apply in_map_iff in Hc'. destruct Hc' as (c & <- & Hc).
    apply filter_In in Hc. destruct Hc as [ Hc Hpc ].
    rewrite Forall_forall in IH.
    destruct (IH c Hc e He) as (e0 & H0 & Hn & Ha & Hp).
    exists e0. split; [ eapply elementsOf_child; eauto | ].
    split; [ exact Hn | ]. split; [ exact Ha | ]. right.
    destruct Hp as [ -> | Hp ]; [ | exact Hp ].
    now destruct (p c).
Qed.

Lemma elements_removeFromDocument (p : node -> bool) (doc : list node) (e : node) :
  In e (elementsOfDocument (removeFromDocument p doc)) ->
  exists e0, In e0 (elementsOfDocument doc) /\ nameOf e = nameOf e0
             /\ attributes e = attributes e0 /\ p e0 = false.
Proof.
  unfold elementsOfDocument, removeFromDocument. intro He.
  apply in_flat_map in He. destruct He as (c' & Hc' & He).
  apply in_map_iff in Hc'. destruct Hc' as (c & <- & Hc).
  apply filter_In in Hc. destruct Hc as [ Hc Hpc ].
  destruct (elementsOf_removeElements p c e He) as (e0 & H0 & Hn & Ha & Hp).
  exists e0. split; [ apply in_flat_map; eauto | ].
  split; [ exact Hn | ]. split; [ exact Ha | ].
  destruct Hp as [ -> | Hp ]; [ now destruct (p c) | exact Hp ].
Qed.

Lemma elements_mapAttribs_document
  (f : list (string * string) -> list (string * string)) (doc : list node) (e : node) :
  In e (elementsOfDocument (map (mapAttribs f) doc)) ->
  exists e0, In e0 (elementsOfDocument doc) /\ nameOf e = nameOf e0
             /\ attributes e = f (attributes e0).
Proof.
  unfold elementsOfDocument. intro He.
  apply in_flat_map in He. destruct He as (c' & Hc' & He).
  apply in_map_iff in Hc'. destruct Hc' as (c & <- & Hc).
  destruct (elementsOf_mapAttribs f c e He) as (e0 & H0 & Hrest).
  exists e0. split; [ apply in_flat_map; eauto | exact Hrest ].
Qed.

Lemma elementsOf_emptySvg (n e : node) :
  In e (elementsOf (emptySvg n)) ->
  exists e0, In e0 (elementsOf n) /\ nameOf e = nameOf e0
             /\ (attributes e = attributes e0
                 \/ (nameOf e = "svg"
                     /\ attributes e
                        = removeAttrs (map fst (attributes e0)) (attributes e0))).
Proof.
  revert e. induction n as [ name attribs children IH | | | ] using node_nested_ind;
    intros e He; simpl in He; try contradiction.
  destruct (String.eqb_spec name "svg") as [ -> | Hne ].
  - simpl in He. rewrite elementsOf_removeElementChildren in He.
    destruct He as [ <- | [] ].
    exists (Element "svg" attribs children). simpl.
    split; [ now left | ]. split; [ reflexivity | ]. right. now split.
  - simpl in He. destruct He as [ <- | He ].
    + exists (Element name attribs children). simpl. auto.
    + apply in_flat_map in He. destruct He as (c' & Hc' & He).
      apply in_map_iff in Hc'. destruct Hc' as (c & <- & Hc).
      rewrite Forall_forall in IH. destruct (IH c Hc e He) as (e0 & H0 & Hrest).
      exists e0. split; [ eapply elementsOf_child; eauto | exact Hrest ].
Qed.

Lemma elements_emptySvg_document (doc : list node) (e : node) :
  In e (elementsOfDocument (map emptySvg doc)) ->
  exists e0, In e0 (elementsOfDocument doc) /\ nameOf e = nameOf e0
             /\ (attributes e = attributes e0
                 \/ (nameOf e = "svg"
                     /\ attributes e
                        = removeAttrs (map fst (attributes e0)) (attributes e0))).
Proof.
  unfold elementsOfDocument. intro He.
  apply in_flat_map in He. destruct He as (c' & Hc' & He).
  apply in_map_iff in Hc'. destruct Hc' as (c & <- & Hc).
  destruct (elementsOf_emptySvg c e He) as (e0 & H0 & Hrest).
  exists e0. split; [ apply in_flat_map; eauto | exact Hrest ].
Qed.

(** The six attribute steps are one pass over the elements. *)
Lemma mapAttribs_compose (f g : list (string * string) -> list (string * string))
  (n : node) :
  mapAttribs g (mapAttribs f n) = mapAttribs (fun a => g (f a)) n.
Proof.
  induction n as [ name attribs children IH | | | ] using node_nested_ind;
    try reflexivity.
  simpl. f_equal. rewrite map_map. apply map_ext_in.
  rewrite Forall_forall in IH. exact IH.
Qed.

Lemma mapAttribs_ext (f g : list (string * string) -> list (string * string))
  (n : node) :
  (forall a, f a = g a) -> mapAttribs f n = mapAttribs g n.
Proof.
  intro H. induction n as [ name attribs children IH | | | ] using node_nested_ind;
    try reflexivity.
  simpl. rewrite H. f_equal. apply map_ext_in.
  rewrite Forall_forall in IH. exact IH.
Qed.

Lemma transformHtml_stages (doc : list node) :
  transformHtml doc
  = map emptySvg
      (removeFromDocument (hasName "template")
         (removeFromDocument linkToRemove
            (removeFromDocument (hasName "style")
               (removeFromDocument scriptToRemove
                  (map (mapAttribs stripAttributes) doc))))).
Proof.
  unfold transformHtml. do 5 f_equal.
  rewrite !map_map. apply map_ext. intro n.
  rewrite !mapAttribs_compose. apply mapAttribs_ext. intro a. reflexivity.
Qed.

(** The five calls with a literal name remove these names and no
    other. *)
Lemma stripAttributes_filter (attribs : list (string * string)) :
  stripAttributes attribs
  = removeDataAttribs (filter (notNamed strippedNames) attribs).
Proof.
  unfold stripAttributes. f_equal.
  rewrite !removeAttr_filter, !filter_filter. apply filter_ext.
  intros [k v]. unfold notNamed, strippedNames.
  change (splitNames "class") with ["class"].
  change (splitNames "srcset") with ["srcset"].
  change (splitNames "imagesrcset") with ["imagesrcset"].
  change (splitNames "style") with ["style"].
  change (splitNames "onclick") with ["onclick"].
  cbn [existsb fst].
  destruct (String.eqb k "class"), (String.eqb k "srcset"),
    (String.eqb k "imagesrcset"), (String.eqb k "style"),
    (String.eqb k "onclick"); reflexivity.
Qed.

(** What is left after the attribute steps: attributes of the element,
    named by none of the five names, a name with [data-] in front being
    left only when it is not one name for [removeAttr]. *)
Lemma stripAttributes_In (attribs : list (string * string)) (k v : string) :
  In (k, v) (stripAttributes attribs) ->
  In (k, v) attribs /\ ~ In k strippedNames
  /\ (isDataAttr k = true -> singleName k = false).
Proof.
  rewrite stripAttributes_filter. unfold removeDataAttribs. intro H.
  pose proof (removeAttrs_singleName _ _ _ _ H) as Hs.
  apply removeAttrs_In in H. destruct H as [ H _ ].
  assert (Hk : In k (map fst (filter (notNamed strippedNames) attribs))).
  { apply in_map_iff. now exists (k, v). }
  apply filter_In in H. destruct H as [ H Hn ]. apply notNamed_In in Hn.
  split; [ exact H | ]. split; [ exact Hn | ].
  intro Hd. apply Hs. apply filter_In. now split.
Qed.

(** An attribute of the element stays when it is named by none of the
    five names and by no name that the loop over the [data-] names hands
    to [removeAttr]. *)
Lemma stripAttributes_kept (attribs : list (string * string)) (k v : string) :
  In (k, v) attribs -> ~ In k strippedNames ->
  (forall name, In name (map fst attribs) -> isDataAttr name = true ->
                ~ In k (splitNames name)) ->
  In (k, v) (stripAttributes attribs).
Proof.
  intros Hin Hn Hd. rewrite stripAttributes_filter. unfold removeDataAttribs.
  apply removeAttrs_In. split.
  - apply filter_In. split; [ exact Hin | ]. now apply notNamed_In.
  - simpl. intro Hp. apply in_flat_map in Hp. destruct Hp as (name & Hname & Hp).
    apply filter_In in Hname. destruct Hname as [ Hname Hdata ].
    apply (Hd name); [ | exact Hdata | exact Hp ].
    apply in_map_iff in Hname. destruct Hname as (kv & <- & Hkv).
    apply filter_In in Hkv. apply in_map, Hkv.
Qed.

(** The attribute steps change nothing in what they, or the loop over an
    [svg] after them, have left. *)
Lemma stripAttributes_fixed (attribs remaining : list (string * string)) :
  incl remaining (stripAttributes attribs) ->
  stripAttributes remaining = remaining.
Proof.
  intro Hc. rewrite stripAttributes_filter.
  assert (Hfive : filter (notNamed strippedNames) remaining = remaining).
  { apply filter_fixed. intros [k v] Hin. apply notNamed_In.
    now destruct (stripAttributes_In _ _ _ (Hc _ Hin)) as (_ & H & _). }
  rewrite Hfive. unfold removeDataAttribs.
  rewrite stripAttributes_filter in Hc. unfold removeDataAttribs in Hc.
  apply (removeAttrs_fixed _ _ _ _ Hc).
  intros k Hk. apply filter_In in Hk. destruct Hk as [ Hk Hd ].
  apply filter_In. split; [ | exact Hd ].
  apply in_map_iff in Hk. destruct Hk as (kv & <- & Hkv).
  apply Hc, removeAttrs_In in Hkv. apply in_map, Hkv.
Qed.

(** Where an element of the result comes from: an element of the input
    that none of the four removals takes, with the same name, and with
    the attributes that the attribute steps leave, less those that the
    loop over an [svg] removes. *)
Lemma transformHtml_origin (doc : list node) (e : node) :
  In e (elementsOfDocument (transformHtml doc)) ->
  exists e1 d,
    nameOf e = nameOf e1
    /\ isElement e1 = true
    /\ In d (elementsOfDocument doc) /\ nameOf e1 = nameOf d
    /\ attributes e1 = stripAttributes (attributes d)
    /\ scriptToRemove e1 = false /\ hasName "style" e1 = false
    /\ linkToRemove e1 = false /\ hasName "template" e1 = false
    /\ (attributes e = attributes e1
        \/ (nameOf e = "svg"
            /\ attributes e
               = removeAttrs (map fst (attributes e1)) (attributes e1))).
Proof.
  rewrite transformHtml_stages. intro He.
  destruct (elements_emptySvg_document _ _ He) as (e4 & H4 & Hn4 & Ha4).
  destruct (elements_removeFromDocument _ _ _ H4) as (e3 & H3 & Hn3 & Ha3 & Hp3).
  destruct (elements_removeFromDocument _ _ _ H3) as (e2 & H2 & Hn2 & Ha2 & Hp2).
  destruct (elements_removeFromDocument _ _ _ H2) as (e1 & H1 & Hn1 & Ha1 & Hp1).
  destruct (elements_removeFromDocument _ _ _ H1) as (e0 & H0 & Hn0 & Ha0 & Hp0).
  destruct (elements_mapAttribs_document _ _ _ H0) as (d & Hd & Hnd & Had).
  assert (Hel : forall x l, In x (elementsOfDocument l) -> isElement x = true).
  { intros x l Hx. apply in_flat_map in Hx. destruct Hx as (c & _ & Hx).
    eapply elementsOf_isElement, Hx. }
  pose proof (Hel _ _ H0) as E0. pose proof (Hel _ _ H1) as E1.
  pose proof (Hel _ _ H2) as E2. pose proof (Hel _ _ H3) as E3.
  destruct e0 as [ n0 a0 c0 | | | ]; try discriminate.
  destruct e1 as [ n1 a1 c1 | | | ]; try discriminate.
  destruct e2 as [ n2 a2 c2 | | | ]; try discriminate.
  destruct e3 as [ n3 a3 c3 | | | ]; try discriminate.
  simpl in Hn0, Hn1, Hn2, Hn3, Ha0, Ha1, Ha2, Ha3, Hnd, Had.
  subst n1 n2 n3 a1 a2 a3.
  exists (Element n0 a0 c0), d. simpl.
  split; [ congruence | ]. split; [ reflexivity | ].
  split; [ exact Hd | ]. split; [ exact Hnd | ]. split; [ exact Had | ].
  clear He H4 H3 H2 H1 H0 Hd Hel Had.
  unfold scriptToRemove, linkToRemove, hasName, attr in *. simpl in *.
  rewrite Hn0 in Hp1, Hp2, Hp3. rewrite Ha0 in Hp2, Ha4.
  split; [ exact Hp0 | ]. split; [ exact Hp1 | ].
  split; [ exact Hp2 | ]. split; [ exact Hp3 | ].
  destruct Ha4 as [ Ha4 | Ha4 ]; [ left; congruence | right; exact Ha4 ].
Qed.

Lemma element_predicates (e e1 : node) :
  isElement e = true -> isElement e1 = true ->
  nameOf e = nameOf e1 ->
  attributes e = attributes e1 \/ nameOf e = "svg" ->
  scriptToRemove e1 = false -> hasName "style" e1 = false ->
  linkToRemove e1 = false -> hasName "template" e1 = false ->
  scriptToRemove e = false /\ hasName "style" e = false
  /\ linkToRemove e = false /\ hasName "template" e = false.
Proof.
  destruct e as [ n a c | | | ]; try discriminate.
  destruct e1 as [ n1 a1 c1 | | | ]; try discriminate.
  unfold scriptToRemove, linkToRemove, hasName, attr. simpl.
  intros _ _ -> [ -> | -> ]; auto.
Qed.

(** What holds of every element of the result. *)
Lemma transformHtml_clean (doc : list node) (e : node) :
  In e (elementsOfDocument (transformHtml doc)) ->
  isElement e = true
  /\ (exists attribs, incl (attributes e) (stripAttributes attribs))
  /\ scriptToRemove e = false /\ hasName "style" e = false
  /\ linkToRemove e = false /\ hasName "template" e = false.
Proof.
  intro He.
  assert (Hel : isElement e = true).
  { apply in_flat_map in He. destruct He as (c & _ & He).
    eapply elementsOf_isElement, He. }
  destruct (transformHtml_origin doc e He)
    as (e1 & d & Hn & He1 & _ & _ & Hattr & Hs & Hst & Hl & Ht & Ha).
  split; [ exact Hel | ]. split.
  - exists (attributes d). rewrite <- Hattr.
    destruct Ha as [ -> | [ _ -> ] ]; [ apply incl_refl | ].
    intros kv Hin. now apply removeAttrs_In in Hin.
  - apply (element_predicates e e1); auto.
    destruct Ha as [ Ha | [ Ha _ ] ]; auto.
Qed.

(** X14: in the result of [transformHtml] no element has an attribute
    named [class], [style], [srcset], [imagesrcset] or [onclick]; an
    attribute whose name starts with [data-] is left only when its name
    holds white space; and every attribute of the result is an attribute
    of an element of the input with the same name, all of whose
    attributes are left, unless the element is an [svg], when they are
    named by none of the five names and by none of the names that the
    [data-] names of the element, split at white space, give. *)
Theorem transformHtml_attributes_stripped (doc : list node) (e : node) :
  In e (elementsOfDocument (transformHtml doc)) ->
  (forall k v, In (k, v) (attributes e) ->
     k <> "class" /\ k <> "style" /\ k <> "srcset" /\ k <> "imagesrcset"
     /\ k <> "onclick"
     /\ (String.prefix "data-" k = true ->
         existsb isWhiteSpace (list_ascii_of_string k) = true))
  /\ exists d,
       In d (elementsOfDocument doc) /\ nameOf d = nameOf e
       /\ (forall k v, In (k, v) (attributes e) -> In (k, v) (attributes d))
       /\ (nameOf e <> "svg" ->
           forall k v, In (k, v) (attributes d) ->
             ~ In k strippedNames ->
             (forall name, In name (map fst (attributes d)) ->
                String.prefix "data-" name = true -> ~ In k (splitNames name)) ->
             In (k, v) (attributes e)).
Proof.
  intro He.
  destruct (transformHtml_origin doc e He)
    as (e1 & d & Hn & _ & Hd & Hnd & Hattr & _ & _ & _ & _ & Ha).
  assert (Hincl : incl (attributes e) (stripAttributes (attributes d))).
  { rewrite <- Hattr. destruct Ha as [ -> | [ _ -> ] ]; [ apply incl_refl | ].
    intros kv Hin. now apply removeAttrs_In in Hin. }
  split.
  - intros k v Hin.
    destruct (stripAttributes_In _ _ _ (Hincl _ Hin)) as (_ & Hfive & Hdata).
    unfold strippedNames in Hfive. simpl in Hfive.
    repeat split; try (intros ->; tauto).
    intro Hp. specialize (Hdata Hp). unfold singleName in Hdata.
    destruct (String.eqb_spec k "") as [ -> | _ ]; [ discriminate Hp | ].
    simpl in Hdata. now apply negb_false_iff in Hdata.
  - exists d. split; [ exact Hd | ]. split; [ congruence | ]. split.
    + intros k v Hin. now destruct (stripAttributes_In _ _ _ (Hincl _ Hin)).
    + intros Hsvg k v Hin Hfive Hdata.
      destruct Ha as [ -> | [ Ha _ ] ]; [ | contradiction ].
      rewrite Hattr. now apply stripAttributes_kept.
Qed.

(** X15: in the result of [transformHtml] there is no [style] and no
    [template] element, every [script] element has the type
    [application/ld+json], and every [link] element has the relation
    [canonical]. *)
Theorem transformHtml_elements_removed (doc : list node) (e : node) :
  In e (elementsOfDocument (transformHtml doc)) ->
  nameOf e <> "style" /\ nameOf e <> "template"
  /\ (nameOf e = "script" -> attr "type" e = Some "application/ld+json")
  /\ (nameOf e = "link" -> attr "rel" e = Some "canonical").
Proof.
  intro He. destruct (transformHtml_clean doc e He) as (Hel & _ & Hs & Hst & Hl & Ht).
  destruct e as [ n a c | | | ]; try discriminate.
  unfold scriptToRemove, linkToRemove, hasName, attr in *. simpl in *.
  split; [ now apply String.eqb_neq | ]. split; [ now apply String.eqb_neq | ].
  split.
  - intros ->. simpl in Hs. destruct (obj_get "type" a) as [ t | ]; [ | discriminate ].
    destruct (String.eqb_spec t "application/ld+json"); [ congruence | discriminate ].
  - intros ->. simpl in Hl. destruct (obj_get "rel" a) as [ r | ]; [ | discriminate ].
    destruct (String.eqb_spec r "canonical"); [ congruence | discriminate ].
Qed.

(** The first theorem at a paragraph with a class, a language and two
    [data-] attributes, the name of one with a no-break space before
    [lang]: [removeAttr] takes it for the two names [data-x] and [lang],
    so that it is the attribute left. *)
Lemma transformHtml_attributes_stripped_witness :
  transformHtml
    [Element "p"
       [("class", "lead"); ("lang", "en"); ("data-id", "7"); (spacedDataName, "1")]
       [Text "hello"]]
  = [Element "p" [(spacedDataName, "1")] [Text "hello"]]
  /\ (forall k v, In (k, v) [(spacedDataName, "1")] ->
        k <> "class" /\ k <> "style" /\ k <> "srcset" /\ k <> "imagesrcset"
        /\ k <> "onclick"
        /\ (String.prefix "data-" k = true ->
            existsb isWhiteSpace (list_ascii_of_string k) = true)).
Proof.
  split; [ reflexivity | ].
  apply (transformHtml_attributes_stripped
           [Element "p"
              [("class", "lead"); ("lang", "en"); ("data-id", "7");
               (spacedDataName, "1")]
              [Text "hello"]]
           (Element "p" [(spacedDataName, "1")] [Text "hello"])).
  left. reflexivity.
Defined.

(** The second theorem at a page with two scripts, a style and a link. *)
Lemma transformHtml_elements_removed_witness :
  attr "type" (Element "script" [("type", "application/ld+json")] [Text "{}"])
  = Some "application/ld+json".
Proof.
  refine (proj1 (proj2 (proj2
            (transformHtml_elements_removed
               [Element "head" []
                  [Element "script" [] [Text "track()"];
                   Element "script" [("type", "application/ld+json")] [Text "{}"];
                   Element "style" [] [Text "p{}"];
                   Element "link" [("rel", "stylesheet")] []]]
               (Element "script" [("type", "application/ld+json")] [Text "{}"])
               _))) eq_refl).
  right. left. reflexivity.
Defined.

Lemma mapAttribs_fixed (f : list (string * string) -> list (string * string))
  (n : node) :
  (forall e, In e (elementsOf n) -> f (attributes e) = attributes e) ->
  mapAttribs f n = n.
Proof.
  induction n as [ name attribs children IH | | | ] using node_nested_ind;
    intro H; try reflexivity.
  simpl. pose proof (H (Element name attribs children) (or_introl eq_refl)) as Hroot.
  simpl in Hroot. rewrite Hroot.
  f_equal. apply map_fixed. apply Forall_forall. intros c Hc.
  rewrite Forall_forall in IH. apply (IH c Hc).
  intros e He. apply H. eapply elementsOf_child; eauto.
Qed.

Lemma removeElements_fixed (p : node -> bool) (n : node) :
  (forall c, isElement c = false -> p c = false) ->
  (forall e, In e (elementsOf n) -> p e = false) ->
  removeElements p n = n.
Proof.
  intro Hother.
  induction n as [ name attribs children IH | | | ] using node_nested_ind;
    intro H; try reflexivity.
  rewrite removeElements_children. f_equal.
  assert (Hc : forall c, In c children -> p c = false).
  { intros c Hc. destruct (isElement c) eqn:E; [ | now apply Hother ].
    apply H. eapply elementsOf_child; [ exact Hc | ].
    destruct c; try discriminate. now left. }
  rewrite filter_fixed by (intros c Hin; now rewrite (Hc c Hin)).
  apply map_fixed. apply Forall_forall. intros c Hin.
  rewrite Forall_forall in IH. apply (IH c Hin).
  intros e He. apply H. eapply elementsOf_child; eauto.
Qed.

Lemma removeFromDocument_fixed (p : node -> bool) (doc : list node) :
  (forall c, isElement c = false -> p c = false) ->
  (forall e, In e (elementsOfDocument doc) -> p e = false) ->
  removeFromDocument p doc = doc.
Proof.
  intros Hother H. unfold removeFromDocument.
  assert (Hc : forall c, In c doc -> p c = false).
  { intros c Hc. destruct (isElement c) eqn:E; [ | now apply Hother ].
    apply H. apply in_flat_map. exists c. split; [ exact Hc | ].
    destruct c; try discriminate. now left. }
  rewrite filter_fixed by (intros c Hin; now rewrite (Hc c Hin)).
  apply map_fixed. apply Forall_forall. intros c Hin.
  apply removeElements_fixed; [ exact Hother | ].
  intros e He. apply H. apply in_flat_map. eauto.
Qed.

Lemma emptySvg_fixed (n : node) :
  (forall e, In e (elementsOf n) -> hasName "svg" e = true ->
             removeAttrs (map fst (attributes e)) (attributes e) = attributes e
             /\ filter isElement (childNodes e) = []) ->
  emptySvg n = n.
Proof.
  induction n as [ name attribs children IH | | | ] using node_nested_ind;
    intro H; try reflexivity.
  simpl. destruct (String.eqb name "svg") eqn:E.
  - destruct (H (Element name attribs children)) as [ Ha Hc ];
      [ now left | simpl; exact E | ].
    simpl in Ha, Hc. rewrite Ha.
    apply String.eqb_eq in E. subst name. simpl. f_equal.
    unfold removeElementChildren. clear - Hc.
    induction children as [ | c children IHc ]; simpl in *; [ reflexivity | ].
    destruct (isElement c); simpl; [ discriminate | ]. f_equal. now apply IHc.
  - f_equal. apply map_fixed. apply Forall_forall. intros c Hc.
    rewrite Forall_forall in IH. apply (IH c Hc).
    intros e He. apply H. eapply elementsOf_child; eauto.
Qed.

(** X16: the stripping is idempotent: applied to its own result, it
    changes nothing. *)
Theorem transformHtml_idempotent (doc : list node) :
  transformHtml (transformHtml doc) = transformHtml doc.
Proof.
  rewrite (transformHtml_stages (transformHtml doc)).
  assert (Hclean := transformHtml_clean doc).
  assert (Hattr : map (mapAttribs stripAttributes) (transformHtml doc)
                  = transformHtml doc).
  { apply map_fixed. apply Forall_forall. intros n Hn.
    apply mapAttribs_fixed. intros e He.
    destruct (Hclean e) as (_ & (attribs & H) & _).
    - apply in_flat_map. eauto.
    - now apply (stripAttributes_fixed attribs). }
  rewrite Hattr.
  assert (Hother : forall tag c, isElement c = false -> hasName tag c = false).
  { intros tag c Hc. destruct c; try reflexivity. discriminate. }
  rewrite (removeFromDocument_fixed scriptToRemove).
  2:{ intros c Hc. unfold scriptToRemove. now rewrite Hother. }
  2:{ intros e He. now destruct (Hclean e He) as (_ & _ & H & _). }
  rewrite (removeFromDocument_fixed (hasName "style")).
  2:{ apply Hother. }
  2:{ intros e He. now destruct (Hclean e He) as (_ & _ & _ & H & _). }
  rewrite (removeFromDocument_fixed linkToRemove).
  2:{ intros c Hc. unfold linkToRemove. now rewrite Hother. }
  2:{ intros e He. now destruct (Hclean e He) as (_ & _ & _ & _ & H & _). }
  rewrite (removeFromDocument_fixed (hasName "template")).
  2:{ apply Hother. }
  2:{ intros e He. now destruct (Hclean e He) as (_ & _ & _ & _ & _ & H). }
  apply map_fixed. apply Forall_forall. intros n Hn.
  apply emptySvg_fixed. intros e He Hsvg.
  unfold transformHtml in Hn. apply in_map_iff in Hn. destruct Hn as (n0 & <- & _).
  destruct (emptySvg_elements n0 e He Hsvg) as [ (attribs & Ha) Hc ].
  split; [ | exact Hc ].
  apply (removeAttrs_fixed (map fst attribs) _ attribs).
  - rewrite Ha. apply incl_refl.
  - rewrite Ha. apply removeAttrs_keys.
Qed.

(** The theorem at a product, whose type is a string. *)
Lemma getSchemaType_throws_iff_witness :
  exists key, getSchemaType product = Some key.
Proof.
  apply (proj2 (getSchemaType_throws_iff product)).
  intros types H. discriminate H.
Defined.

(* ================================================================== *)
(** * A page against itself *)

Section SamePage.
Variable collationKey : string -> list N.

(** X17: a page none of whose schemas has a property named [__proto__],
    compared with itself, is reported identical for every type, each
    comparison having no difference and the same count on both sides. *)
Theorem compareSchemas_same_page (page : JsonLdSchema) :
  noProtoKeys (schemasByType page) ->
  allTypesIdentical (compareSchemas collationKey page page) = true
  /\ (forall c, In c (typeComparisons (compareSchemas collationKey page page)) ->
        differences c = [] /\ identical c = true /\ count1 c = count2 c)
  /\ totalSchemas1 (compareSchemas collationKey page page)
     = totalSchemas2 (compareSchemas collationKey page page).
Proof.
  intros _.
  assert (H : forall c,
             In c (typeComparisons (compareSchemas collationKey page page)) ->
             differences c = [] /\ identical c = true /\ count1 c = count2 c).
  { intros c Hc. rewrite typeComparisons_map in Hc. apply in_map_iff in Hc.
    destruct Hc as (t & <- & _).
    destruct (compareSchemasOfType_same collationKey t
                (bucketOf (schemasByType page) t)) as [ Hd Hi ].
    split; [ exact Hd | ]. split; [ exact Hi | reflexivity ]. }
  split; [ | split; [ exact H | reflexivity ] ].
  change (allTypesIdentical (compareSchemas collationKey page page))
    with (forallb identical (typeComparisons (compareSchemas collationKey page page))).
  apply forallb_forall. intros c Hc. now destruct (H c Hc) as (_ & Hi & _).
Qed.
End SamePage.

(** The theorem at the page with one product named [Old]. *)
Lemma compareSchemas_same_page_witness :
  allTypesIdentical (compareSchemas cldrRootKey pageOld pageOld) = true
  /\ map differences (typeComparisons (compareSchemas cldrRootKey pageOld pageOld))
     = [[]].
Proof.
  destruct (compareSchemas_same_page cldrRootKey pageOld) as (H & _ & _).
  - repeat constructor; simpl; intuition discriminate.
  - split; [ exact H | reflexivity ].
Defined.

(* ================================================================== *)
(** * The lines of a run *)







